(** * The blog schema of [src/schema.js]: resolvers, queries and mutations

    A shallow embedding of the resolver functions of the GraphQL schema
    (type dispatch of [HasAuthor], the field resolvers of [Post], the root
    queries and the two mutations) over an explicit Data Store, followed by
    the properties of these functions. *)

From Stdlib Require Import ZArith Ascii String List Permutation Sorted Lia.
From stdpp Require Import gmap strings list fin_maps.

Local Open Scope string_scope.
Local Open Scope list_scope.
Local Open Scope Z_scope.

(** ** JavaScript primitives the schema relies on *)

Module Js.

(** What a [throw] carries: the [TypeError] of the runtime (a property
    read on [undefined], a call of a non-function) and the [Error] the
    mutations construct themselves. *)
Inductive JsError : Type :=
| TypeError (msg : string)
| Error (msg : string).

(** A computation that returns or throws. *)
Definition result (A : Type) : Type := (JsError + A)%type.

Definition bind {A B : Type} (c : result A) (k : A -> result B) : result B :=
  match c with
  | inl e => inl e
  | inr a => k a
  end.

(** The values a field of a candidate record may hold. Objects, arrays,
    functions and dates are all [VObject]: only their truthiness is
    observed. Numbers are the integers, with [VNaN] apart. *)
Inductive Value : Type :=
| VUndefined
| VNull
| VBool (b : bool)
| VNum (n : Z)
| VNaN
| VStr (s : string)
| VObject.

(** [ToBoolean]: what [if (v)] tests. *)
Definition truthy (v : Value) : bool :=
  match v with
  | VUndefined | VNull | VNaN => false
  | VBool b => b
  | VNum n => negb (n =? 0)
  | VStr s => negb (String.eqb s "")
  | VObject => true
  end.

(** A plain object as a finite map from own property names to values;
    reading a property that is not there gives [undefined]. *)
Definition get (obj : gmap string Value) (key : string) : Value :=
  default VUndefined (obj !! key).

(** Strings are the UTF-8 bytes of the script's strings.
    [String.prototype.toLowerCase] and [toUpperCase] are given on the ASCII
    letters and on the sharp s (U+00DF, the bytes 195 159), which upper-cases
    to [SS] and lower-cases to itself; every other byte is left as it is. On
    strings of ASCII characters and sharp s these are the mappings of the
    language; on other characters they are not, and every property below
    that computes a case mapping says which strings it speaks of. *)
Definition lowerChar (c : ascii) : ascii :=
  let n := nat_of_ascii c in
  if ((65 <=? n) && (n <=? 90))%nat then ascii_of_nat (n + 32) else c.

Definition upperChar (c : ascii) : ascii :=
  let n := nat_of_ascii c in
  if ((97 <=? n) && (n <=? 122))%nat then ascii_of_nat (n - 32) else c.

Fixpoint toLowerCase (s : string) : string :=
  match s with
  | EmptyString => EmptyString
  | String c s' => String (lowerChar c) (toLowerCase s')
  end.

Definition isSharpS (c d : ascii) : bool :=
  ((nat_of_ascii c =? 195) && (nat_of_ascii d =? 159))%nat.

Fixpoint toUpperCase (s : string) : string :=
  match s with
  | EmptyString => EmptyString
  | String c s' =>
      match s' with
      | String d s'' =>
          if isSharpS c d
          then String "S" (String "S" (toUpperCase s''))
          else String (upperChar c) (toUpperCase s')
      | EmptyString => String (upperChar c) EmptyString
      end
  end.


(** [arr.slice(0, end)] for an integer [end]: a negative [end] counts from
    the end of the array, and the bounds are clamped to the array. *)
Definition slice0 {A : Type} (l : list A) (end_ : Z) : list A :=
  let len := Z.of_nat (length l) in
  let final := if end_ <? 0 then Z.max (len + end_) 0 else Z.min end_ len in
  take (Z.to_nat final) l.

(** The number a comparator hands to [sort]: an integer or [NaN]. *)
Definition Number : Type := option Z.

Definition sub (x y : Number) : Number :=
  match x, y with
  | Some a, Some b => Some (a - b)
  | _, _ => None
  end.

(** [Array.prototype.sort(comparefn)] as a stable insertion sort (the
    language requires the sort to be stable since its 2019 edition): an
    element moves behind a neighbour only when [comparefn] answers a number
    greater than zero; [NaN] counts as zero. A comparator that throws aborts
    the sort. Older engines reorder elements that compare equal, and the
    order under a comparator that is no ordering is the engine's own: apart
    from runs on two or three posts, the properties below use of the sort
    only that its answer is a permutation of the array, in the order of the
    comparator where the comparator is an ordering. *)
Section Sort.
Context {A : Type} (comparefn : A -> A -> result Number).

Definition after (v : Number) : bool :=
  match v with
  | Some n => 0 <? n
  | None => false
  end.

Fixpoint sortedInsert (x : A) (l : list A) : result (list A) :=
  match l with
  | [] => inr [x]
  | y :: l' =>
      bind (comparefn x y) (fun v =>
      if after v
      then bind (sortedInsert x l') (fun r => inr (y :: r))
      else inr (x :: y :: l'))
  end.

Fixpoint sort (l : list A) : result (list A) :=
  match l with
  | [] => inr []
  | x :: l' => bind (sort l') (sortedInsert x)
  end.
End Sort.

End Js.

Import Js.

Notation "'let*' x ':=' c 'in' k" := (Js.bind c (fun x => k))
  (at level 10, x name, c at level 100, k at level 200).

(** ** The Data Store and its records *)

(** The [Category] enumeration; the values, not the names, travel on the
    wire. *)
Inductive Category : Type := METEOR | PRODUCT | USER_STORY | OTHER.

Definition categoryValue (c : Category) : string :=
  match c with
  | METEOR => "meteor"
  | PRODUCT => "product"
  | USER_STORY => "user-story"
  | OTHER => "other"
  end.

(** The [date] property of a post, in the shapes the schema meets:
    - no [date] at all ([undefined]);
    - a [Date] instance with time value [t], which is what [createPost]
      stores ([new Date()]) and [Post.timestamp] reads ([getTime()]);
    - a plain record with a [$date] property, which is what the comparator of
      [latestPost] and [recentPosts] reads; [t] is the time value of
      [new Date(date['$date'])], [None] standing for [NaN]. *)
Inductive DateField : Type :=
| NoDate
| DateObject (t : Z)
| DateRecord (t : Js.Number).

Record GeoCoord : Type := { lat : string; lng : string }.

Record Address : Type :=
  { street : string; suite : string; city : string; zipcode : string;
    geo : option GeoCoord }.

Record Company : Type :=
  { company_name : string; catchPhrase : string; bs : string }.

Record User : Type :=
  { user_id : Z;
    user_name : string;
    username : string;
    user_email : option string;
    address : option Address;
    phone : option string;
    website : option string;
    company : option Company }.

Record Post : Type :=
  { post_id : Z;
    userId : option Z;
    title : string;
    category : option Category;
    likeCount : option Z;
    body : string;
    author : option string;
    date : DateField }.

Record Comment : Type :=
  { comment_id : Z;
    postId : Z;
    comment_name : string;
    comment_email : string;
    comment_body : string }.

(** The three module-level collections: [PostsList] and [CommentsList] are
    arrays, [UsersMap] is a plain object used as a map from the lower-cased
    username to the user; the finite map holds its own properties. The
    [userId] of a post is optional: [None] is [undefined]. *)
Record Store : Type :=
  { PostsList : list Post;
    UsersMap : gmap string User;
    CommentsList : list Comment }.

Definition setPosts (l : list Post) (st : Store) : Store :=
  {| PostsList := l; UsersMap := UsersMap st; CommentsList := CommentsList st |}.

Definition setUsers (m : gmap string User) (st : Store) : Store :=
  {| PostsList := PostsList st; UsersMap := m; CommentsList := CommentsList st |}.

(** The properties a plain object inherits from [Object.prototype]; each is
    a function or an object, so it is truthy and has no [id]. *)
Definition objectPrototype : list string :=
  ["constructor"; "__defineGetter__"; "__defineSetter__"; "hasOwnProperty";
   "__lookupGetter__"; "__lookupSetter__"; "isPrototypeOf";
   "propertyIsEnumerable"; "toString"; "valueOf"; "__proto__";
   "toLocaleString"].

(** What [UsersMap[key]] reads: the user stored under the key, else the
    property of that name that the object inherits, else [undefined]. *)
Inductive Property : Type :=
| Own (u : User)
| Inherited (name : string)
| Undefined.

Definition getProperty (m : gmap string User) (key : string) : Property :=
  match m !! key with
  | Some u => Own u
  | None => if decide (key ∈ objectPrototype) then Inherited key else Undefined
  end.

(** A resolver that may touch the store: it returns or throws, and leaves a
    store behind either way. *)
Definition Resolver (A : Type) : Type := Store -> Js.result A * Store.

(** ** Interface dispatch *)

Inductive ObjectType : Type := TPost | TComment.

(** [HasAuthor.resolveType]: the candidate is any object; [None] is the
    [null] of the source. *)
Definition resolveType (obj : gmap string Js.Value) : option ObjectType :=
  if Js.truthy (Js.get obj "title") then Some TPost
  else if Js.truthy (Js.get obj "replies") then Some TComment
  else None.

(** ** Field resolvers of [Post] *)

(** What [Post.timestamp] hands to the [GraphQLFloat] field: [null], or a
    fresh [Date] with the given time value. *)
Inductive Timestamp : Type :=
| TsNull
| TsDate (t : Z).

(** The epoch number the [Float] field puts on the wire for a [Date]. *)
Definition epoch (ts : Timestamp) : option Z :=
  match ts with
  | TsNull => None
  | TsDate t => Some t
  end.

(** [if (post.date) return new Date(post.date.getTime()); else return null]:
    every object is truthy, and only a [Date] has [getTime]. *)
Definition timestamp (post : Post) : Js.result Timestamp :=
  match date post with
  | NoDate => inr TsNull
  | DateObject t => inr (TsDate t)
  | DateRecord _ => inl (Js.TypeError "post.date.getTime is not a function")
  end.

(** An optional [GraphQLInt] argument as the resolver receives it. *)
Inductive IntArg : Type :=
| ArgUndefined
| ArgNull
| ArgInt (n : Z).

(** [limit >= 0]: [undefined] converts to [NaN], [null] to zero. *)
Definition geZero (a : IntArg) : bool :=
  match a with
  | ArgUndefined => false
  | ArgNull => true
  | ArgInt n => 0 <=? n
  end.

(** [ToIntegerOrInfinity] of the argument as [slice] takes it, where
    [geZero] holds. *)
Definition argInteger (a : IntArg) : Z :=
  match a with
  | ArgInt n => n
  | _ => 0
  end.

(** [Post.comments]. *)
Definition comments (post : Post) (limit : IntArg) (st : Store) : list Comment :=
  let cList := filter (fun comment => post_id post = postId comment) (CommentsList st) in
  if geZero limit then Js.slice0 cList (argInteger limit) else cList.

(** ** Root queries *)

(** [Query.user]. *)
Definition user (uname : string) (st : Store) : Property :=
  getProperty (UsersMap st) (Js.toLowerCase uname).

(** [new Date(p.date['$date']).getTime()]: reading [$date] off a missing
    date throws; a [Date] instance has no such property, and
    [new Date(undefined)] is an invalid date. *)
Definition dollarDateTime (p : Post) : Js.result Js.Number :=
  match date p with
  | NoDate => inl (Js.TypeError "Cannot read property '$date' of undefined")
  | DateObject _ => inr None
  | DateRecord t => inr t
  end.

(** The comparator both sorting queries pass to [sort]. *)
Definition byDateDesc (a b : Post) : Js.result Js.Number :=
  let* bTime := dollarDateTime b in
  let* aTime := dollarDateTime a in
  inr (Js.sub bTime aTime).

(** [PostsList.sort(...)] sorts the live array in place. When the comparator
    throws the store is returned as it was; what an aborted sort leaves in
    the array is up to the engine, and no property below speaks of it. *)
Definition sortPostsList : Resolver (list Post) := fun st =>
  match Js.sort byDateDesc (PostsList st) with
  | inl e => (inl e, st)
  | inr sorted => (inr sorted, setPosts sorted st)
  end.

(** [Query.latestPost]; [None] is the [undefined] of [PostsList[0]] on an
    empty array. *)
Definition latestPost : Resolver (option Post) := fun st =>
  match sortPostsList st with
  | (inl e, st') => (inl e, st')
  | (inr sorted, st') => (inr (head (PostsList st')), st')
  end.

(** [Query.recentPosts]. *)
Definition recentPosts (count : Z) : Resolver (list Post) := fun st =>
  match sortPostsList st with
  | (inl e, st') => (inl e, st')
  | (inr sorted, st') => (inr (Js.slice0 (PostsList st') count), st')
  end.

(** ** Mutations *)

Record CreatePostArgs : Type :=
  { arg_title : string;
    arg_body : string;
    arg_category : option Category;
    arg_author : string }.

Record CreateUserArgs : Type :=
  { arg_username : string;
    arg_name : string;
    arg_email : option string }.

(** [user.id] of what [UsersMap[key]] has read, where that is truthy. *)
Definition idOf (found : Property) : option Z :=
  match found with
  | Own u => Some (user_id u)
  | _ => None
  end.

(** [Mutation.createPost]. The argument object itself becomes the post, so
    it keeps its [author] property; [now] is the reading of the clock that
    [new Date()] takes. The [console.log] of the post is left out. *)
Definition createPost (args : CreatePostArgs) (now : Z) : Resolver Post := fun st =>
  match getProperty (UsersMap st) (Js.toLowerCase (arg_author args)) with
  | Undefined => (inl (Js.Error ("No such author: " +:+ arg_author args)), st)
  | found =>
      let post :=
        {| post_id := Z.of_nat (length (PostsList st)) + 1;
           userId := idOf found;
           title := arg_title args;
           category := arg_category args;
           likeCount := None;
           body := arg_body args;
           author := Some (arg_author args);
           date := DateObject now |} in
      (inr post, setPosts (PostsList st ++ [post]) st)
  end.

(** [Mutation.createUser]: [_.size(_.values(UsersMap))] counts the entries
    of the map. *)
Definition createUser (args : CreateUserArgs) : Resolver User := fun st =>
  match getProperty (UsersMap st) (Js.toLowerCase (arg_username args)) with
  | Own _ | Inherited _ =>
      (inl (Js.Error ("User already exists: " +:+ arg_username args)), st)
  | Undefined =>
      let u :=
        {| user_id := Z.of_nat (size (UsersMap st)) + 1;
           user_name := arg_name args;
           username := arg_username args;
           user_email := arg_email args;
           address := None;
           phone := None;
           website := None;
           company := None |} in
      (inr u, setUsers (<[Js.toLowerCase (arg_username args) := u]> (UsersMap st)) st)
  end.

(** A call of either mutation, and a run of such calls; a call that throws
    leaves the store to the next one. *)
Inductive Mutation : Type :=
| CreatePost (args : CreatePostArgs) (now : Z)
| CreateUser (args : CreateUserArgs).

Definition mutate (m : Mutation) (st : Store) : Store :=
  match m with
  | CreatePost args now => snd (createPost args now st)
  | CreateUser args => snd (createUser args st)
  end.

Definition mutateAll (ms : list Mutation) (st : Store) : Store :=
  foldl (fun s m => mutate m s) st ms.

(** Consecutive [createPost] calls, each of which has to succeed; the posts
    are returned in call order. *)
Fixpoint createPosts (calls : list (CreatePostArgs * Z)) : Resolver (list Post) := fun st =>
  match calls with
  | [] => (inr [], st)
  | (args, now) :: rest =>
      match createPost args now st with
      | (inl e, st') => (inl e, st')
      | (inr p, st') =>
          match createPosts rest st' with
          | (inl e, st'') => (inl e, st'')
          | (inr ps, st'') => (inr (p :: ps), st'')
          end
      end
  end.

(** ** Sample data *)

Definition rec (i : Z) (t : Z) : Post :=
  {| post_id := i; userId := Some 1; title := "t"; category := None;
     likeCount := None; body := "b"; author := None;
     date := DateRecord (Some t) |}.

Definition alice : User :=
  {| user_id := 1; user_name := "Alice"; username := "alice";
     user_email := None; address := None; phone := None; website := None;
     company := None |}.

(** A user whose username is the sharp s, stored under its lower-cased form,
    which is the sharp s again. *)
Definition eszett : string := String "195" (String "159" EmptyString).



Definition aliceStore : Store :=
  {| PostsList := []; UsersMap := {[ "alice" := alice ]}; CommentsList := [] |}.

Definition scenarioStore : Store :=
  {| PostsList := [rec 1 1609459200000; rec 2 1682899200000; rec 3 1654041600000];
     UsersMap := ∅; CommentsList := [] |}.

(** The same three posts dated by [Date] instances, as [createPost] would
    have dated them. *)
Definition dated (i : Z) (t : Z) : Post :=
  {| post_id := i; userId := Some 1; title := "t"; category := None;
     likeCount := None; body := "b"; author := Some "alice";
     date := DateObject t |}.

Definition datedStore : Store :=
  {| PostsList := [dated 1 1609459200000; dated 2 1682899200000; dated 3 1654041600000];
     UsersMap := {[ "alice" := alice ]}; CommentsList := [] |}.

Definition undated (i : Z) : Post :=
  {| post_id := i; userId := Some 1; title := "t"; category := None;
     likeCount := None; body := "b"; author := None; date := NoDate |}.

Definition comment (i p : Z) : Comment :=
  {| comment_id := i; postId := p; comment_name := "n"; comment_email := "e";
     comment_body := "c" |}.

Definition commentStore : Store :=
  {| PostsList := [rec 1 0];
     UsersMap := ∅;
     CommentsList :=
       [comment 1 1; comment 2 2; comment 3 1; comment 4 1; comment 5 2;
        comment 6 1; comment 7 1] |}.

Definition postArgs (a : string) : CreatePostArgs :=
  {| arg_title := "T"; arg_body := "B"; arg_category := None; arg_author := a |}.

Definition userArgs (u : string) : CreateUserArgs :=
  {| arg_username := u; arg_name := "N"; arg_email := None |}.

(** ** Vocabulary of the properties *)

(** The instant a post's date denotes, whichever its shape. *)
Definition postTime (p : Post) : option Z :=
  match date p with
  | NoDate => None
  | DateObject t => Some t
  | DateRecord t => t
  end.

(** The post's date is a [$date] record with a valid time. *)
Definition hasDollarDate (p : Post) : Prop :=
  exists t, date p = DateRecord (Some t).

(** The post's date is a [Date] instance. *)
Definition hasDateObject (p : Post) : Prop :=
  exists t, date p = DateObject t.

(** [a] is dated, and [b] is dated no later than [a]. *)
Definition notOlder (a b : Post) : Prop :=
  exists ta tb, postTime a = Some ta /\ postTime b = Some tb /\ tb <= ta.

(** Most recent first. *)
Definition descendingByDate (l : list Post) : Prop := StronglySorted notOlder l.

(** Every key of the users map is the lower-cased username of its user. *)
Definition usersKeyed (st : Store) : Prop :=
  forall k u, UsersMap st !! k = Some u -> k = Js.toLowerCase (username u).

(** The comment was made about the post. *)
Definition commentOf (post : Post) (c : Comment) : Prop := post_id post = postId c.

#[global] Instance commentOf_dec (post : Post) (c : Comment) :
  Decision (commentOf post c) := decide (post_id post = postId c).

(** The comments of a post, in the order of the comments collection. *)
Definition commentsOf (post : Post) (st : Store) : list Comment :=
  filter (commentOf post) (CommentsList st).


(** A resolver call threw. *)
Definition threw {A : Type} (r : Js.result A * Store) : Prop :=
  exists e, fst r = inl e.

(** ** The remaining resolvers *)

#[global] Instance Category_eq_dec : EqDecision Category.
Proof. solve_decision. Defined.

#[global] Instance DateField_eq_dec : EqDecision DateField.
Proof. solve_decision. Defined.

(** [_.values(UsersMap)] lists the users of the map in the engine's order of
    property enumeration. The finite map does not record that order, so the
    resolvers that enumerate the map take it as a parameter [values]; all
    that is known of it is [valuesOf]: it lists the values of the map, each
    entry once. [mapOrder] is one such order. *)
Definition ValuesOrder : Type := gmap string User -> list User.

Definition valuesOf (values : ValuesOrder) : Prop :=
  forall m, values m ≡ₚ (map_to_list m).*2.

Definition mapOrder : ValuesOrder := fun m => (map_to_list m).*2.

(** [Post.author]: [_.filter(_.values(UsersMap), ...)[0]], [None] being the
    [undefined] found at index 0 of an empty array. *)
Definition Post_author (values : ValuesOrder) (p : Post) (st : Store) : option User :=
  head (filter (fun u => userId p = Some (user_id u)) (values (UsersMap st))).

Module Query.

(** [Query.posts]: the argument is a value of the [Category] enumeration or
    is not there; [post.category === category] compares the value strings,
    a post without a category having [undefined] there. Without a category
    the live array itself is returned. *)
Definition posts (cat : option Category) (st : Store) : list Post :=
  match cat with
  | Some c =>
      if Js.truthy (Js.VStr (categoryValue c))
      then filter (fun p => categoryValue <$> category p = Some (categoryValue c))
                  (PostsList st)
      else PostsList st
  | None => PostsList st
  end.

(** [Query.users]. *)
Definition users (values : ValuesOrder) (st : Store) : list User :=
  values (UsersMap st).

(** [Query.post]: [_.filter(PostsList, ...)[0]]. *)
Definition post (id : Z) (st : Store) : option Post :=
  head (filter (fun p => post_id p = id) (PostsList st)).

End Query.

(** ** Runs of operations *)

(** The root fields that write to the store: the two mutations and the two
    sorting queries. The other resolvers only read. *)
Inductive Operation : Type :=
| OpCreatePost (args : CreatePostArgs) (now : Z)
| OpCreateUser (args : CreateUserArgs)
| OpLatestPost
| OpRecentPosts (count : Z).

Definition perform (op : Operation) (st : Store) : Store :=
  match op with
  | OpCreatePost args now => snd (createPost args now st)
  | OpCreateUser args => snd (createUser args st)
  | OpLatestPost => snd (latestPost st)
  | OpRecentPosts count => snd (recentPosts count st)
  end.

Definition performAll (ops : list Operation) (st : Store) : Store :=
  foldl (fun s op => perform op s) st ops.

(** Every post has a date, of either shape: the sorting queries then never
    throw. *)
Definition allDated (st : Store) : Prop :=
  Forall (fun p => date p <> NoDate) (PostsList st).

(** The ids of the posts are pairwise distinct and lie between 1 and the
    number of posts. *)
Definition postIdsDense (st : Store) : Prop :=
  NoDup (post_id <$> PostsList st) /\
  Forall (fun p => 1 <= post_id p <= Z.of_nat (length (PostsList st))) (PostsList st).

(** The ids of the users are pairwise distinct and lie between 1 and the
    number of users. *)
Definition userIdsDense (st : Store) : Prop :=
  (forall k u, UsersMap st !! k = Some u ->
               1 <= user_id u <= Z.of_nat (size (UsersMap st))) /\
  (forall k1 k2 u1 u2, UsersMap st !! k1 = Some u1 -> UsersMap st !! k2 = Some u2 ->
                       user_id u1 = user_id u2 -> k1 = k2).

(** The [userId] of every post is the id of a user of the store. *)
Definition authorsExist (st : Store) : Prop :=
  Forall (fun p => exists k u, UsersMap st !! k = Some u /\
                               userId p = Some (user_id u))
         (PostsList st).

(** The operation is no [createPost] for an author whose lower-cased name is
    a property every object inherits. *)
Definition plainOp (op : Operation) : Prop :=
  match op with
  | OpCreatePost args _ => Js.toLowerCase (arg_author args) ∉ objectPrototype
  | _ => True
  end.

Definition bob : User :=
  {| user_id := 2; user_name := "Bob"; username := "Bob";
     user_email := None; address := None; phone := None; website := None;
     company := None |}.

(** Two users, and three posts made by [createPost]. *)
Definition blogStore : Store :=
  {| PostsList :=
       [ {| post_id := 1; userId := Some 1; title := "a"; category := Some METEOR;
            likeCount := None; body := "b"; author := Some "alice";
            date := DateObject 1000 |};
         {| post_id := 2; userId := Some 2; title := "c"; category := None;
            likeCount := None; body := "d"; author := Some "BOB";
            date := DateObject 2000 |};
         {| post_id := 3; userId := Some 1; title := "e"; category := Some OTHER;
            likeCount := None; body := "f"; author := Some "Alice";
            date := DateObject 3000 |} ];
     UsersMap := <[ "bob" := bob ]> {[ "alice" := alice ]};
     CommentsList := [comment 1 1; comment 2 3; comment 3 1] |}.

(** * Properties *)

(** ** Strings *)


Lemma lowerChar_idem (c : ascii) : Js.lowerChar (Js.lowerChar c) = Js.lowerChar c.
Proof.
  destruct c as [[] [] [] [] [] [] [] []]; reflexivity.
Qed.




(** The sharp s is two bytes; it upper-cases to [SS], which lower-cases to
    [ss], while the sharp s lower-cases to itself. *)
Example sharp_s_case :
  eszett = "ß" /\
  Js.toUpperCase eszett = "SS" /\
  Js.toLowerCase (Js.toUpperCase eszett) = "ss" /\
  Js.toLowerCase eszett = eszett.
Proof. repeat split. Qed.

Lemma toLowerCase_idem (s : string) :
  Js.toLowerCase (Js.toLowerCase s) = Js.toLowerCase s.
Proof.
  induction s as [|c s IH]; simpl; [reflexivity|].
  now rewrite lowerChar_idem, IH.
Qed.

(** ** Interface dispatch *)

Lemma resolveType_cases (obj : gmap string Js.Value) :
  resolveType obj =
    match Js.truthy (Js.get obj "title"), Js.truthy (Js.get obj "replies") with
    | true, _ => Some TPost
    | false, true => Some TComment
    | false, false => None
    end.
Proof.
  unfold resolveType.
  now destruct (Js.truthy (Js.get obj "title")), (Js.truthy (Js.get obj "replies")).
Qed.

(** C6, as the code has it: dispatch goes by the truthiness of the [title]
    and then of the [replies] property, in that order: a truthy [title]
    gives [Post]; otherwise a truthy [replies] gives [Comment]; otherwise
    the answer is [null]. A record that carries neither property is
    answered [null], and no record without a [title] is a [Post]. *)
Theorem resolveType_by_truthiness (obj : gmap string Js.Value) :
  (resolveType obj = Some TPost <-> Js.truthy (Js.get obj "title") = true) /\
  (resolveType obj = Some TComment <->
     Js.truthy (Js.get obj "title") = false /\ Js.truthy (Js.get obj "replies") = true) /\
  (resolveType obj = None <->
     Js.truthy (Js.get obj "title") = false /\ Js.truthy (Js.get obj "replies") = false) /\
  (obj !! "title" = None -> resolveType obj <> Some TPost) /\
  (obj !! "title" = None -> obj !! "replies" = None -> resolveType obj = None).
Proof.
  rewrite resolveType_cases. unfold Js.get.
  destruct (obj !! "title") as [vt|], (obj !! "replies") as [vr|]; simpl;
    repeat match goal with
           | |- context [Js.truthy ?v] => destruct (Js.truthy v)
           end;
    intuition congruence.
Qed.

(** C6, as the claim words it, fails: a record that carries a [title]
    property holding the empty string is not classified as [Post]. *)
Lemma resolveType_empty_title :
  is_Some (({[ "title" := Js.VStr "" ]} : gmap string Js.Value) !! "title") /\
  resolveType {[ "title" := Js.VStr "" ]} = None.
Proof.
  split; [|reflexivity].
  exists (Js.VStr ""). reflexivity.
Qed.

(** ** [Post.timestamp] *)

Lemma timestamp_no_date (p : Post) :
  date p = NoDate -> timestamp p = inr TsNull.
Proof. unfold timestamp. now intros ->. Qed.

Lemma timestamp_of_Date (p : Post) (t : Z) :
  date p = DateObject t ->
  exists ts, timestamp p = inr ts /\ epoch ts = Some t /\ epoch ts = postTime p.
Proof.
  unfold timestamp, postTime. intros ->. now exists (TsDate t).
Qed.

Lemma timestamp_of_dollar_date (p : Post) :
  hasDollarDate p -> exists msg, timestamp p = inl (Js.TypeError msg).
Proof.
  unfold timestamp. intros [t ->]. eauto.
Qed.

(** C7 at a post dated by a [$date] record, the shape the sorting queries
    read: the post has a date, and the resolver throws instead of returning
    its epoch value. *)
Theorem timestamp_throws_on_dollar_date :
  postTime (rec 1 1609459200000) = Some 1609459200000 /\
  timestamp (rec 1 1609459200000) =
    inl (Js.TypeError "post.date.getTime is not a function").
Proof. split; reflexivity. Qed.

(** ** Slicing *)

Lemma slice0_nonneg {A : Type} (l : list A) (n : Z) :
  0 <= n -> Js.slice0 l n = take (Z.to_nat n) l.
Proof.
  intros Hn. unfold Js.slice0.
  destruct (Z.ltb_spec n 0) as [?|_]; [lia|].
  destruct (Z.le_gt_cases n (Z.of_nat (length l))) as [Hle|Hgt].
  - now rewrite Z.min_l.
  - rewrite Z.min_r, Nat2Z.id by lia.
    rewrite !take_ge; [reflexivity | lia | lia].
Qed.

Lemma slice0_negative {A : Type} (l : list A) (n : Z) :
  n < 0 -> Js.slice0 l n = take (length l - Z.to_nat (- n)) l.
Proof.
  intros Hn. unfold Js.slice0.
  destruct (Z.ltb_spec n 0) as [_|?]; [|lia].
  f_equal. lia.
Qed.

(** ** [Post.comments] *)

(** C8: the comments of a post are the comments whose [postId] is the
    post's id, in the order of the collection; without a limit, or with a
    negative one, all of them are returned; with a limit [n >= 0] the first
    [n] of them, all of them when there are fewer. *)
Theorem comments_filter_then_limit (post : Post) (st : Store) :
  commentsOf post st `sublist_of` CommentsList st /\
  (forall c, c ∈ commentsOf post st <-> c ∈ CommentsList st /\ postId c = post_id post) /\
  comments post ArgUndefined st = commentsOf post st /\
  (forall n, n < 0 -> comments post (ArgInt n) st = commentsOf post st) /\
  (forall n, 0 <= n ->
     comments post (ArgInt n) st = take (Z.to_nat n) (commentsOf post st) /\
     length (comments post (ArgInt n) st) =
       Nat.min (Z.to_nat n) (length (commentsOf post st))) /\
  (forall n, Z.of_nat (length (commentsOf post st)) <= n ->
     comments post (ArgInt n) st = commentsOf post st).
Proof.
  unfold comments, commentsOf, commentOf.
  split; [apply sublist_filter|].
  split.
  { intros c. rewrite list_elem_of_filter. intuition congruence. }
  split; [reflexivity|].
  split.
  { intros n Hn. simpl. destruct (Z.leb_spec 0 n); [lia | reflexivity]. }
  split.
  - intros n Hn. simpl. destruct (Z.leb_spec 0 n); [|lia].
    rewrite slice0_nonneg by assumption. split; [reflexivity | apply length_take].
  - intros n Hn. simpl. destruct (Z.leb_spec 0 n); [|lia].
    rewrite slice0_nonneg by assumption. apply take_ge. lia.
Qed.

(** The scenario of the specification: five comments of the post, a limit
    of two. *)
Example comments_limit_2_of_5 :
  map comment_id (commentsOf (rec 1 0) commentStore) = [1; 3; 4; 6; 7] /\
  map comment_id (comments (rec 1 0) (ArgInt 2) commentStore) = [1; 3] /\
  map comment_id (comments (rec 1 0) (ArgInt (-1)) commentStore) = [1; 3; 4; 6; 7] /\
  map comment_id (comments (rec 1 0) ArgUndefined commentStore) = [1; 3; 4; 6; 7].
Proof. repeat split; reflexivity. Qed.

(** An explicit [null] limit passes the [limit >= 0] test and slices to
    nothing. *)
Lemma comments_null_limit (post : Post) (st : Store) :
  comments post ArgNull st = [].
Proof. unfold comments. simpl. now rewrite slice0_nonneg. Qed.

(** ** [Query.user] *)

Lemma getProperty_Own (m : gmap string User) (key : string) (u : User) :
  getProperty m key = Own u <-> m !! key = Some u.
Proof.
  unfold getProperty. destruct (m !! key) as [u'|].
  - split; congruence.
  - case_decide; split; discriminate.
Qed.

Lemma getProperty_Undefined (m : gmap string User) (key : string) :
  getProperty m key = Undefined <-> m !! key = None /\ key ∉ objectPrototype.
Proof.
  unfold getProperty. destruct (m !! key) as [u'|].
  - split; [discriminate | intros [H _]; discriminate H].
  - case_decide as Hin.
    + split; [discriminate | intros [_ Hout]; contradiction].
    + split; [intros _; split; [reflexivity | exact Hin] | reflexivity].
Qed.

Lemma getProperty_Inherited (m : gmap string User) (key name : string) :
  getProperty m key = Inherited name <->
  m !! key = None /\ key ∈ objectPrototype /\ name = key.
Proof.
  unfold getProperty. destruct (m !! key) as [u'|].
  - split; [discriminate | intros [H _]; discriminate H].
  - case_decide as Hin.
    + split; [intros [= <-]; repeat split; exact Hin | now intros (_ & _ & ->)].
    + split; [discriminate | intros (_ & Hin' & _); contradiction].
Qed.





Example user_alice :
  user "alice" aliceStore = Own alice /\ user "ALICE" aliceStore = Own alice /\
  user "bob" aliceStore = Undefined.
Proof. repeat split; reflexivity. Qed.

(** ** Mutations *)

Lemma createPost_throws (args : CreatePostArgs) (now : Z) (st : Store) :
  getProperty (UsersMap st) (Js.toLowerCase (arg_author args)) = Undefined ->
  createPost args now st =
    (inl (Js.Error ("No such author: " +:+ arg_author args)), st).
Proof. unfold createPost. now intros ->. Qed.

Lemma createPost_found (args : CreatePostArgs) (now : Z) (st : Store) :
  getProperty (UsersMap st) (Js.toLowerCase (arg_author args)) <> Undefined ->
  exists p,
    createPost args now st = (inr p, setPosts (PostsList st ++ [p]) st) /\
    post_id p = Z.of_nat (length (PostsList st)) + 1 /\
    userId p = idOf (getProperty (UsersMap st) (Js.toLowerCase (arg_author args))) /\
    date p = DateObject now /\
    category p = arg_category args.
Proof.
  unfold createPost. intros Hfound.
  destruct (getProperty (UsersMap st) (Js.toLowerCase (arg_author args)));
    [| |contradiction]; eexists; repeat split.
Qed.

Lemma createPost_returns (args : CreatePostArgs) (now : Z) (st : Store) (u : User) :
  UsersMap st !! Js.toLowerCase (arg_author args) = Some u ->
  exists p,
    createPost args now st = (inr p, setPosts (PostsList st ++ [p]) st) /\
    post_id p = Z.of_nat (length (PostsList st)) + 1 /\
    userId p = Some (user_id u) /\
    date p = DateObject now.
Proof.
  intros Hu. apply getProperty_Own in Hu.
  destruct (createPost_found args now st) as (p & Hcall & Hid & Huid & Hdate & _);
    [congruence|].
  rewrite Hu in Huid. exists p. repeat split; assumption.
Qed.

(** Either [createPost] finds nothing under the lower-cased author and
    throws, leaving the store as it was, or it appends one post. *)
Lemma createPost_cases (args : CreatePostArgs) (now : Z) (st : Store) :
  (getProperty (UsersMap st) (Js.toLowerCase (arg_author args)) = Undefined /\
   createPost args now st =
     (inl (Js.Error ("No such author: " +:+ arg_author args)), st)) \/
  (getProperty (UsersMap st) (Js.toLowerCase (arg_author args)) <> Undefined /\
   exists p,
     createPost args now st = (inr p, setPosts (PostsList st ++ [p]) st) /\
     post_id p = Z.of_nat (length (PostsList st)) + 1 /\
     userId p = idOf (getProperty (UsersMap st) (Js.toLowerCase (arg_author args))) /\
     date p = DateObject now /\
     category p = arg_category args).
Proof.
  destruct (getProperty (UsersMap st) (Js.toLowerCase (arg_author args)))
    as [u|name|] eqn:Hfound.
  - right. split; [discriminate|]. rewrite <- Hfound.
    apply createPost_found. congruence.
  - right. split; [discriminate|]. rewrite <- Hfound.
    apply createPost_found. congruence.
  - left. split; [reflexivity|]. now apply createPost_throws.
Qed.

Lemma createUser_throws (args : CreateUserArgs) (st : Store) (u : User) :
  UsersMap st !! Js.toLowerCase (arg_username args) = Some u ->
  createUser args st =
    (inl (Js.Error ("User already exists: " +:+ arg_username args)), st).
Proof.
  intros Hu. apply getProperty_Own in Hu. unfold createUser. now rewrite Hu.
Qed.

Lemma createUser_taken (args : CreateUserArgs) (st : Store) :
  getProperty (UsersMap st) (Js.toLowerCase (arg_username args)) <> Undefined ->
  createUser args st =
    (inl (Js.Error ("User already exists: " +:+ arg_username args)), st).
Proof.
  unfold createUser.
  destruct (getProperty (UsersMap st) (Js.toLowerCase (arg_username args)));
    [reflexivity | reflexivity | contradiction].
Qed.

Lemma createUser_returns (args : CreateUserArgs) (st : Store) :
  getProperty (UsersMap st) (Js.toLowerCase (arg_username args)) = Undefined ->
  exists u,
    createUser args st =
      (inr u, setUsers (<[Js.toLowerCase (arg_username args) := u]> (UsersMap st)) st) /\
    user_id u = Z.of_nat (size (UsersMap st)) + 1 /\
    username u = arg_username args.
Proof. unfold createUser. intros ->. eexists. repeat split. Qed.

(** Either [createUser] finds something under the lower-cased username and
    throws, leaving the store as it was, or the key is free and it inserts
    one user under it. *)
Lemma createUser_cases (args : CreateUserArgs) (st : Store) :
  (getProperty (UsersMap st) (Js.toLowerCase (arg_username args)) <> Undefined /\
   createUser args st =
     (inl (Js.Error ("User already exists: " +:+ arg_username args)), st)) \/
  (UsersMap st !! Js.toLowerCase (arg_username args) = None /\
   (Js.toLowerCase (arg_username args) ∉ objectPrototype) /\
   exists u,
     createUser args st =
       (inr u, setUsers (<[Js.toLowerCase (arg_username args) := u]> (UsersMap st)) st) /\
     user_id u = Z.of_nat (size (UsersMap st)) + 1 /\
     username u = arg_username args).
Proof.
  destruct (getProperty (UsersMap st) (Js.toLowerCase (arg_username args)))
    as [u|name|] eqn:Hfound.
  - left. split; [discriminate|]. apply createUser_taken. congruence.
  - left. split; [discriminate|]. apply createUser_taken. congruence.
  - right. apply getProperty_Undefined in Hfound as Hfree.
    destruct Hfree as [Hnone Hplain]. repeat split; [assumption..|].
    now apply createUser_returns.
Qed.

(** What a call that has returned has done. *)
Lemma createPost_returned (args : CreatePostArgs) (now : Z) (st : Store) (p : Post) :
  fst (createPost args now st) = inr p ->
  getProperty (UsersMap st) (Js.toLowerCase (arg_author args)) <> Undefined /\
  createPost args now st = (inr p, setPosts (PostsList st ++ [p]) st) /\
  post_id p = Z.of_nat (length (PostsList st)) + 1 /\
  userId p = idOf (getProperty (UsersMap st) (Js.toLowerCase (arg_author args))) /\
  date p = DateObject now /\
  category p = arg_category args.
Proof.
  destruct (createPost_cases args now st)
    as [[_ ->]|[Hsome (q & -> & Hrest)]]; simpl; [discriminate|].
  intros [= <-]. split; [exact Hsome|]. split; [reflexivity | exact Hrest].
Qed.

Lemma createUser_returned (args : CreateUserArgs) (st : Store) (u : User) :
  fst (createUser args st) = inr u ->
  UsersMap st !! Js.toLowerCase (arg_username args) = None /\
  (Js.toLowerCase (arg_username args) ∉ objectPrototype) /\
  createUser args st =
    (inr u, setUsers (<[Js.toLowerCase (arg_username args) := u]> (UsersMap st)) st) /\
  user_id u = Z.of_nat (size (UsersMap st)) + 1 /\
  username u = arg_username args.
Proof.
  destruct (createUser_cases args st)
    as [[_ ->]|(Hnone & Hplain & u0 & -> & Hrest)]; simpl; [discriminate|].
  intros [= <-]. repeat split; solve [assumption | apply Hrest].
Qed.

(** Both mutations are atomic, and what decides them is the property read at
    the lower-cased name, stored or inherited: [createPost] throws exactly
    when there is none, [createUser] exactly when there is one; a call that
    throws leaves the store as it was; a call that returns has appended its
    post to the posts, or inserted its user under a key that was free, and
    has touched nothing else. *)
Lemma mutations_by_property (st : Store) :
  (forall args now,
     (threw (createPost args now st) <->
        getProperty (UsersMap st) (Js.toLowerCase (arg_author args)) = Undefined) /\
     (threw (createPost args now st) -> snd (createPost args now st) = st) /\
     (forall p, fst (createPost args now st) = inr p ->
        PostsList (snd (createPost args now st)) = PostsList st ++ [p] /\
        UsersMap (snd (createPost args now st)) = UsersMap st /\
        CommentsList (snd (createPost args now st)) = CommentsList st)) /\
  (forall args,
     (threw (createUser args st) <->
        getProperty (UsersMap st) (Js.toLowerCase (arg_username args)) <> Undefined) /\
     (threw (createUser args st) -> snd (createUser args st) = st) /\
     (forall u, fst (createUser args st) = inr u ->
        UsersMap st !! Js.toLowerCase (arg_username args) = None /\
        UsersMap (snd (createUser args st)) =
          <[Js.toLowerCase (arg_username args) := u]> (UsersMap st) /\
        size (UsersMap (snd (createUser args st))) = S (size (UsersMap st)) /\
        PostsList (snd (createUser args st)) = PostsList st /\
        CommentsList (snd (createUser args st)) = CommentsList st)).
Proof.
  split.
  - intros args now. unfold threw.
    destruct (createPost_cases args now st)
      as [[Hnone ->]|[Hsome (p & -> & _)]]; simpl.
    + repeat split; eauto; discriminate.
    + repeat split.
      * intros [e He]. discriminate.
      * contradiction.
      * intros [e He]. discriminate.
      * congruence.
  - intros args. unfold threw.
    destruct (createUser_cases args st)
      as [[Hsome ->]|(Hnone & Hplain & u & -> & _)]; simpl.
    + repeat split; eauto; discriminate.
    + assert (Hfree : getProperty (UsersMap st) (Js.toLowerCase (arg_username args))
                      = Undefined) by now apply getProperty_Undefined.
      repeat split.
      * intros [e He]. discriminate.
      * contradiction.
      * intros [e He]. discriminate.
      * exact Hnone.
      * congruence.
      * now apply map_size_insert_None.
Qed.

(** C2 at a name the users map inherits: no user is keyed by [constructor],
    yet [createUser] throws for that username, finding the inherited
    property there, and [createPost] does not throw for that author: it
    appends a post whose [userId] is [undefined]. *)
Theorem mutations_at_inherited_name :
  UsersMap aliceStore !! Js.toLowerCase "Constructor" = None /\
  fst (createUser (userArgs "Constructor") aliceStore)
    = inl (Js.Error "User already exists: Constructor") /\
  exists p,
    createPost (postArgs "Constructor") 1000 aliceStore
      = (inr p, setPosts [p] aliceStore) /\
    userId p = None.
Proof.
  split; [reflexivity|]. split; [reflexivity|].
  eexists. split; reflexivity.
Qed.

(** Under the keying invariant, a key is taken exactly when some stored
    user has the same username up to case. *)
Lemma keyed_iff_same_username (st : Store) (a : string) :
  usersKeyed st ->
  is_Some (UsersMap st !! Js.toLowerCase a) <->
  exists k u, UsersMap st !! k = Some u /\
              Js.toLowerCase (username u) = Js.toLowerCase a.
Proof.
  intros Hkeyed. split.
  - intros [u Hu]. exists (Js.toLowerCase a), u. split; [exact Hu|].
    symmetry. now apply Hkeyed.
  - intros (k & u & Hk & Hsame). exists u.
    rewrite <- Hsame, <- (Hkeyed k u Hk). exact Hk.
Qed.

Lemma mutate_usersKeyed (m : Mutation) (st : Store) :
  usersKeyed st -> usersKeyed (mutate m st).
Proof.
  intros Hkeyed. destruct m as [args now|args]; simpl.
  - destruct (createPost_cases args now st)
      as [[_ ->]|[_ (p & -> & _)]]; exact Hkeyed.
  - destruct (createUser_cases args st)
      as [[_ ->]|(_ & _ & u0 & -> & _ & Hname)]; [exact Hkeyed|].
    intros k u. simpl. rewrite lookup_insert.
    destruct (decide (Js.toLowerCase (arg_username args) = k)) as [<-|Hne].
    + intros [= <-]. now rewrite Hname.
    + apply Hkeyed.
Qed.

(** C5: if every key of the users map is the lower-cased username of its
    user, the same holds after any run of [createUser] and [createPost]
    calls. *)
Theorem usersKeyed_preserved (ms : list Mutation) (st : Store) :
  usersKeyed st -> usersKeyed (mutateAll ms st).
Proof.
  unfold mutateAll. revert st.
  induction ms as [|m ms IH]; intros st Hkeyed; simpl; [exact Hkeyed|].
  apply IH. now apply mutate_usersKeyed.
Qed.

Lemma usersKeyed_aliceStore : usersKeyed aliceStore.
Proof.
  intros k u. simpl. intros [<- <-]%lookup_singleton_Some. reflexivity.
Qed.

Lemma usersKeyed_preserved_witness :
  usersKeyed
    (mutateAll [CreateUser (userArgs "Bob"); CreatePost (postArgs "BOB") 1000;
                CreateUser (userArgs "bOB"); CreatePost (postArgs "carol") 2000]
               aliceStore).
Proof.
  apply (usersKeyed_preserved _ aliceStore). exact usersKeyed_aliceStore.
Defined.

(** ** Consecutive [createPost] calls *)

(** Consecutive [createPost] calls that all return assign consecutive ids,
    append their posts in call order, leave the users alone, and give each
    post the id of what the lookup of its author found. *)
Lemma createPosts_from (calls : list (CreatePostArgs * Z)) :
  forall (st st' : Store) (created : list Post),
    createPosts calls st = (inr created, st') ->
    map post_id created =
      map (fun i => Z.of_nat (length (PostsList st) + i)) (seq 1 (length calls)) /\
    PostsList st' = PostsList st ++ created /\
    UsersMap st' = UsersMap st /\
    Forall2 (fun call p => userId p = idOf (user (arg_author (fst call)) st))
            calls created.
Proof.
  induction calls as [|[args now] rest IH]; intros st st' created; simpl.
  - intros [= <- <-]. rewrite app_nil_r. repeat split. constructor.
  - destruct (createPost_cases args now st)
      as [[_ ->]|[_ (p & -> & Hid & Huid & _)]]; [discriminate|].
    destruct (createPosts rest (setPosts (PostsList st ++ [p]) st))
      as [[e|ps] st''] eqn:Hrest; [discriminate|].
    intros [= <- <-].
    destruct (IH _ _ _ Hrest) as (Hids & Hposts & Husers & Hall).
    simpl in Hids, Hposts, Husers, Hall.
    repeat split.
    + simpl. f_equal; [lia|].
      rewrite Hids, <- (seq_shift (length rest) 1), map_map.
      apply map_ext. intros i. rewrite length_app. simpl. lia.
    + now rewrite Hposts, <- app_assoc.
    + exact Husers.
    + constructor; [exact Huid | exact Hall].
Qed.

(** When every author is the username of a stored user, up to case, the
    posts carry the ids 1, ..., N and the ids of those users. *)
Lemma createPosts_stored_authors
    (calls : list (CreatePostArgs * Z)) (st st' : Store) (created : list Post) :
  PostsList st = [] ->
  Forall (fun call => exists u, user (arg_author (fst call)) st = Own u) calls ->
  createPosts calls st = (inr created, st') ->
  map post_id created = map Z.of_nat (seq 1 (length calls)) /\
  PostsList st' = created /\
  Forall2 (fun call p =>
             exists u, user (arg_author (fst call)) st = Own u /\
                       userId p = Some (user_id u))
          calls created.
Proof.
  intros Hempty Hstored Hrun.
  destruct (createPosts_from calls st st' created Hrun) as (Hids & Hposts & _ & Hall).
  rewrite Hempty in Hids, Hposts. simpl in Hids, Hposts.
  repeat split; [assumption..|].
  clear Hids Hposts Hrun. induction Hall as [|call p calls created Hp Hall IH];
    [constructor|].
  apply Forall_cons in Hstored as [[u Hu] Hstored].
  constructor; [|now apply IH].
  exists u. split; [exact Hu|]. now rewrite Hp, Hu.
Qed.

(** C4 at an author the users map inherits: two [createPost] calls on a
    store without posts both return, with the ids 1 and 2; the author of the
    second, [constructor], is no user of the store, and the [userId] of its
    post is [undefined]. *)
Theorem createPosts_inherited_author :
  exists p1 p2 st',
    createPosts [(postArgs "Alice", 1000); (postArgs "constructor", 2000)]
      aliceStore = (inr [p1; p2], st') /\
    map post_id [p1; p2] = [1; 2] /\
    userId p1 = Some (user_id alice) /\
    user "constructor" aliceStore = Inherited "constructor" /\
    UsersMap aliceStore !! Js.toLowerCase "constructor" = None /\
    userId p2 = None.
Proof.
  eexists _, _, _. split; [reflexivity|]. repeat split.
Qed.

(** ** Sorting *)

Section SortFacts.
Context {A : Type} (comparefn : A -> A -> Js.result Js.Number).

Lemma sortedInsert_Permutation (x : A) (l r : list A) :
  Js.sortedInsert comparefn x l = inr r -> r ≡ₚ x :: l.
Proof.
  revert r. induction l as [|y l IH]; intros r; simpl.
  - now intros [= <-].
  - destruct (comparefn x y) as [e|v]; simpl; [discriminate|].
    destruct (Js.after v).
    + destruct (Js.sortedInsert comparefn x l) as [e|r'] eqn:Hins; simpl;
        [discriminate|].
      intros [= <-]. rewrite (IH r' eq_refl). apply Permutation_swap.
    + now intros [= <-].
Qed.

(** A sort that returns has permuted the array: the same records, none
    added, dropped or altered. *)
Lemma sort_Permutation (l r : list A) :
  Js.sort comparefn l = inr r -> l ≡ₚ r.
Proof.
  revert r. induction l as [|x l IH]; intros r; simpl.
  - now intros [= <-].
  - destruct (Js.sort comparefn l) as [e|s]; simpl; [discriminate|].
    intros Hins. apply sortedInsert_Permutation in Hins.
    rewrite Hins. now rewrite <- (IH s eq_refl).
Qed.

Lemma sort_length (l r : list A) :
  Js.sort comparefn l = inr r -> length r = length l.
Proof.
  intros H. apply sort_Permutation in H. now rewrite H.
Qed.
End SortFacts.

Lemma byDateDesc_dollar (a b : Post) (ta tb : Z) :
  date a = DateRecord (Some ta) -> date b = DateRecord (Some tb) ->
  byDateDesc a b = inr (Some (tb - ta)).
Proof.
  unfold byDateDesc, dollarDateTime. now intros -> ->.
Qed.

Lemma byDateDesc_date_objects (a b : Post) :
  hasDateObject a -> hasDateObject b -> byDateDesc a b = inr None.
Proof.
  unfold byDateDesc, dollarDateTime. now intros [ta ->] [tb ->].
Qed.

Lemma hasDollarDate_postTime (p : Post) :
  hasDollarDate p -> exists t, postTime p = Some t.
Proof.
  unfold postTime. intros [t ->]. eauto.
Qed.

Lemma notOlder_trans (a b c : Post) :
  notOlder a b -> notOlder b c -> notOlder a c.
Proof.
  intros (ta & tb & Ha & Hb & Hab) (tb' & tc & Hb' & Hc & Hbc).
  exists ta, tc. repeat split; [assumption..|].
  rewrite Hb in Hb'. injection Hb' as <-. lia.
Qed.

Lemma sortedInsert_dollar (x : Post) (l : list Post) :
  hasDollarDate x -> Forall hasDollarDate l -> descendingByDate l ->
  exists r, Js.sortedInsert byDateDesc x l = inr r /\ descendingByDate r.
Proof.
  intros [tx Hx]. unfold descendingByDate.
  induction l as [|y l IH]; intros Hall Hsorted; simpl.
  - eexists. split; [reflexivity|]. repeat constructor.
  - apply Forall_cons in Hall as [[ty Hy] Hall].
    apply StronglySorted_inv in Hsorted as [Hsorted Hy_first].
    rewrite (byDateDesc_dollar x y tx ty Hx Hy). simpl.
    destruct (Z.ltb_spec 0 (ty - tx)) as [Hlt|Hge].
    + destruct (IH Hall Hsorted) as (r & Hins & Hr). rewrite Hins. simpl.
      eexists. split; [reflexivity|].
      constructor; [exact Hr|].
      apply sortedInsert_Permutation in Hins.
      rewrite Hins. constructor; [|exact Hy_first].
      exists ty, tx. unfold postTime. rewrite Hx, Hy. repeat split. lia.
    + eexists. split; [reflexivity|].
      assert (Hxy : notOlder x y).
      { exists tx, ty. unfold postTime. rewrite Hx, Hy. repeat split. lia. }
      constructor; [now constructor|].
      constructor; [exact Hxy|].
      eapply Forall_impl; [exact Hy_first|].
      intros z Hz. simpl. now apply (notOlder_trans x y z).
Qed.

(** On posts dated by [$date] records the sort returns, and what it returns
    is in descending order of date. *)
Lemma sort_dollar (l : list Post) :
  Forall hasDollarDate l ->
  exists r, Js.sort byDateDesc l = inr r /\ descendingByDate r /\ l ≡ₚ r.
Proof.
  induction l as [|x l IH]; intros Hall; simpl.
  - eexists. repeat split; constructor.
  - apply Forall_cons in Hall as [Hx Hall].
    destruct (IH Hall) as (s & Hsort & Hs & Hperm). rewrite Hsort. simpl.
    assert (Hall_s : Forall hasDollarDate s) by now rewrite <- Hperm.
    destruct (sortedInsert_dollar x s Hx Hall_s Hs) as (r & Hins & Hr).
    exists r. repeat split; [exact Hins | exact Hr |].
    apply sortedInsert_Permutation in Hins. now rewrite Hins, Hperm.
Qed.

(** On posts dated by [Date] instances, the shape [createPost] stores, every
    comparison is [NaN] and the sort leaves the array as it is. *)
Lemma sort_date_objects (l : list Post) :
  Forall hasDateObject l -> Js.sort byDateDesc l = inr l.
Proof.
  induction l as [|x l IH]; intros Hall; simpl; [reflexivity|].
  apply Forall_cons in Hall as [Hx Hall].
  rewrite (IH Hall). simpl.
  destruct l as [|y l]; simpl; [reflexivity|].
  apply Forall_cons in Hall as [Hy _].
  now rewrite (byDateDesc_date_objects x y Hx Hy).
Qed.

Lemma byDateDesc_returns (a b : Post) :
  date a <> NoDate -> date b <> NoDate -> exists v, byDateDesc a b = inr v.
Proof.
  unfold byDateDesc, dollarDateTime. intros Ha Hb.
  destruct (date b); [congruence|..]; (destruct (date a); [congruence|..]);
    simpl; eauto.
Qed.

Lemma sortedInsert_returns (x : Post) (l : list Post) :
  date x <> NoDate -> Forall (fun p => date p <> NoDate) l ->
  exists r, Js.sortedInsert byDateDesc x l = inr r.
Proof.
  intros Hx. induction l as [|y l IH]; intros Hall; simpl; [eauto|].
  apply Forall_cons in Hall as [Hy Hall].
  destruct (byDateDesc_returns x y Hx Hy) as (v & ->). simpl.
  destruct (Js.after v); [|eauto].
  destruct (IH Hall) as (r & ->). simpl. eauto.
Qed.

(** The sort returns as soon as every post has a date. *)
Lemma sort_returns (l : list Post) :
  Forall (fun p => date p <> NoDate) l -> exists r, Js.sort byDateDesc l = inr r.
Proof.
  induction l as [|x l IH]; intros Hall; simpl; [eauto|].
  apply Forall_cons in Hall as [Hx Hall].
  destruct (IH Hall) as (s & Hsort). rewrite Hsort. simpl.
  apply sortedInsert_returns; [exact Hx|].
  apply sort_Permutation in Hsort. now rewrite <- Hsort.
Qed.

(** A post without a date makes the comparator, and so the sort, throw as
    soon as there is anything to compare. *)
Lemma sortedInsert_throws_undated (x y : Post) (l : list Post) :
  date x = NoDate \/ date y = NoDate ->
  exists e, Js.sortedInsert byDateDesc x (y :: l) = inl e.
Proof.
  simpl. unfold byDateDesc, dollarDateTime.
  intros [Hx|Hy].
  - rewrite Hx. destruct (date y); simpl; eauto.
  - rewrite Hy. simpl. eauto.
Qed.

Lemma sort_throws_undated (l : list Post) :
  (2 <= length l)%nat -> Exists (fun p => date p = NoDate) l ->
  exists e, Js.sort byDateDesc l = inl e.
Proof.
  induction l as [|x l IH]; intros Hlen Hex; simpl in *; [lia|].
  destruct (Js.sort byDateDesc l) as [e|s] eqn:Hsort; simpl; [eauto|].
  pose proof (sort_Permutation _ _ _ Hsort) as Hperm.
  destruct s as [|y s].
  { apply Permutation_nil_r in Hperm. subst l. simpl in Hlen. lia. }
  apply Exists_cons in Hex as [Hx|Hl].
  - apply sortedInsert_throws_undated. now left.
  - destruct l as [|z [|z' l]].
    + simpl in Hlen. lia.
    + apply Permutation_singleton_l in Hperm. injection Hperm as <- <-.
      apply sortedInsert_throws_undated. right.
      now apply Exists_cons in Hl as [Hz|Hnil%Exists_nil].
    + destruct IH as (e & He); [simpl; lia | exact Hl | congruence].
Qed.

Example sort_throws_on_undated_post :
  Js.sort byDateDesc [rec 1 0; undated 2] =
    inl (Js.TypeError "Cannot read property '$date' of undefined").
Proof. reflexivity. Qed.

(** ** [Query.latestPost] and [Query.recentPosts] *)

Lemma sorting_queries_return (st : Store) (sorted : list Post) :
  Js.sort byDateDesc (PostsList st) = inr sorted ->
  latestPost st = (inr (head sorted), setPosts sorted st) /\
  forall count, recentPosts count st = (inr (Js.slice0 sorted count), setPosts sorted st).
Proof.
  unfold latestPost, recentPosts, sortPostsList. now intros ->.
Qed.

Lemma sorting_queries_throw (st : Store) (e : Js.JsError) :
  Js.sort byDateDesc (PostsList st) = inl e ->
  fst (latestPost st) = inl e /\ forall count, fst (recentPosts count st) = inl e.
Proof.
  unfold latestPost, recentPosts, sortPostsList. now intros ->.
Qed.

(** On [$date] records [latestPost] answers a post of the collection that no
    post is newer than, and [recentPosts] the first [count] posts of the
    collection in descending order of date. *)
Lemma latestPost_newest_dollar (st : Store) :
  Forall hasDollarDate (PostsList st) -> PostsList st <> [] ->
  exists p, fst (latestPost st) = inr (Some p) /\ p ∈ PostsList st /\
            Forall (notOlder p) (PostsList st).
Proof.
  intros Hall Hne.
  destruct (sort_dollar _ Hall) as (sorted & Hsort & Hdesc & Hperm).
  destruct (sorting_queries_return st sorted Hsort) as [-> _]. simpl.
  destruct sorted as [|p sorted].
  { apply Permutation_nil_r in Hperm. contradiction. }
  exists p. split; [reflexivity|]. rewrite Hperm.
  split; [apply list_elem_of_here|].
  apply StronglySorted_inv in Hdesc as [_ Hfirst].
  constructor; [|exact Hfirst].
  assert (Hp : hasDollarDate p).
  { rewrite Hperm in Hall. now apply Forall_cons in Hall as [Hp _]. }
  destruct (hasDollarDate_postTime p Hp) as (t & Ht).
  exists t, t. repeat split; [assumption..|lia].
Qed.

Lemma recentPosts_dollar (st : Store) (count : Z) :
  Forall hasDollarDate (PostsList st) -> 0 <= count ->
  exists sorted, PostsList st ≡ₚ sorted /\ descendingByDate sorted /\
                 fst (recentPosts count st) = inr (take (Z.to_nat count) sorted).
Proof.
  intros Hall Hcount.
  destruct (sort_dollar _ Hall) as (sorted & Hsort & Hdesc & Hperm).
  destruct (sorting_queries_return st sorted Hsort) as [_ ->]. simpl.
  exists sorted. now rewrite slice0_nonneg.
Qed.

(** The scenario of the specification, on [$date] records. *)
Example recentPosts_scenario :
  exists l, fst (recentPosts 2 scenarioStore) = inr l /\ map post_id l = [2; 3].
Proof. eexists. split; reflexivity. Qed.

(** On [Date] instances neither query sorts anything. *)
Lemma sorting_queries_date_objects (st : Store) :
  Forall hasDateObject (PostsList st) ->
  latestPost st = (inr (head (PostsList st)), st) /\
  forall count, recentPosts count st = (inr (Js.slice0 (PostsList st) count), st).
Proof.
  intros Hall.
  destruct (sorting_queries_return st _ (sort_date_objects _ Hall)) as [-> Hrecent].
  destruct st as [posts users cmts]. split; [reflexivity|].
  intros count. now rewrite Hrecent.
Qed.

(** C1 at posts made by [createPost]: after two calls, at times 1000 and
    2000, [latestPost] answers the first, older post and [recentPosts(1)]
    the same; and over the three posts of the scenario dated by [Date]
    instances, [recentPosts(2)] answers the posts 1 and 2, not 2 and 3. *)
Theorem latestPost_misses_created_post :
  exists p1 p2 st,
    createPosts [(postArgs "alice", 1000); (postArgs "alice", 2000)] aliceStore
      = (inr [p1; p2], st) /\
    postTime p1 = Some 1000 /\ postTime p2 = Some 2000 /\
    fst (latestPost st) = inr (Some p1) /\
    fst (recentPosts 1 st) = inr [p1] /\
    exists l, fst (recentPosts 2 datedStore) = inr l /\ map post_id l = [1; 2].
Proof.
  eexists _, _, _. split; [reflexivity|].
  repeat split. eexists. split; reflexivity.
Qed.

(** On posts dated by [$date] records either query leaves the posts
    collection in the sorted order it computed its answer from, that is in
    descending order of date; the collection holds the same records as
    before, and the other collections are as before. *)
Lemma sorting_queries_reorder_dollar (st : Store) (count : Z) :
  Forall hasDollarDate (PostsList st) ->
  exists sorted,
    PostsList (snd (latestPost st)) = sorted /\
    PostsList (snd (recentPosts count st)) = sorted /\
    fst (latestPost st) = inr (head sorted) /\
    fst (recentPosts count st) = inr (Js.slice0 sorted count) /\
    descendingByDate sorted /\
    PostsList st ≡ₚ sorted /\
    UsersMap (snd (latestPost st)) = UsersMap st /\
    CommentsList (snd (latestPost st)) = CommentsList st /\
    UsersMap (snd (recentPosts count st)) = UsersMap st /\
    CommentsList (snd (recentPosts count st)) = CommentsList st.
Proof.
  intros Hall.
  destruct (sort_dollar _ Hall) as (sorted & Hsort & Hdesc & Hperm).
  destruct (sorting_queries_return st sorted Hsort) as [-> Hrecent].
  rewrite Hrecent. exists sorted. simpl. repeat split; assumption.
Qed.

Lemma scenarioStore_dollar : Forall hasDollarDate (PostsList scenarioStore).
Proof. repeat constructor; eexists; reflexivity. Qed.

(** In the scenario the posts 1, 2, 3 are left in the order 2, 3, 1. *)
Example scenarioStore_reordered :
  map post_id (PostsList scenarioStore) = [1; 2; 3] /\
  map post_id (PostsList (snd (latestPost scenarioStore))) = [2; 3; 1] /\
  map post_id (PostsList (snd (recentPosts 2 scenarioStore))) = [2; 3; 1].
Proof. repeat split. Qed.

(** The three posts of [datedStore] are what three [createPost] calls
    leave. *)
Example datedStore_created :
  createPosts
    [({| arg_title := "t"; arg_body := "b"; arg_category := None;
         arg_author := "alice" |}, 1609459200000);
     ({| arg_title := "t"; arg_body := "b"; arg_category := None;
         arg_author := "alice" |}, 1682899200000);
     ({| arg_title := "t"; arg_body := "b"; arg_category := None;
         arg_author := "alice" |}, 1654041600000)]
    aliceStore
  = (inr (PostsList datedStore), datedStore).
Proof. reflexivity. Qed.

(** C3 at posts made by [createPost]: after two calls, at times 1000 and
    2000, both queries leave the collection in the order of insertion,
    oldest first, which is not the descending order of date. *)
Theorem sorting_queries_keep_created_order :
  exists p1 p2 st,
    createPosts [(postArgs "alice", 1000); (postArgs "alice", 2000)] aliceStore
      = (inr [p1; p2], st) /\
    postTime p1 = Some 1000 /\ postTime p2 = Some 2000 /\
    PostsList (snd (latestPost st)) = [p1; p2] /\
    PostsList (snd (recentPosts 2 st)) = [p1; p2] /\
    ~ descendingByDate [p1; p2].
Proof.
  eexists _, _, _. split; [reflexivity|].
  repeat split.
  intros Hdesc. apply StronglySorted_inv in Hdesc as [_ Hfirst].
  apply Forall_cons in Hfirst as [(ta & tb & Ha & Hb & Hle) _].
  vm_compute in Ha, Hb. injection Ha as <-. injection Hb as <-. lia.
Qed.

(** The same without any assumption on the dates: whenever a sorting query
    returns, the posts collection it leaves is a permutation of the one it
    found. *)
Lemma sorting_queries_permute (st : Store) (count : Z) :
  (forall r, fst (latestPost st) = inr r ->
             PostsList st ≡ₚ PostsList (snd (latestPost st))) /\
  (forall r, fst (recentPosts count st) = inr r ->
             PostsList st ≡ₚ PostsList (snd (recentPosts count st))).
Proof.
  destruct (Js.sort byDateDesc (PostsList st)) as [e|sorted] eqn:Hsort.
  - destruct (sorting_queries_throw st e Hsort) as [-> ->].
    split; intros r; discriminate.
  - destruct (sorting_queries_return st sorted Hsort) as [-> ->].
    apply sort_Permutation in Hsort. split; intros r _; exact Hsort.
Qed.

(** C10, as the code has it: for a negative [count], whenever the sort
    returns, [recentPosts(count)] answers the sorted posts without the last
    [-count] of them: the empty list exactly when there are at most
    [-count] posts, and never the full list of a collection that has
    posts. *)
Theorem recentPosts_negative_count (st : Store) (count : Z) (sorted : list Post) :
  count < 0 ->
  Js.sort byDateDesc (PostsList st) = inr sorted ->
  fst (recentPosts count st) =
    inr (take (length sorted - Z.to_nat (- count)) sorted) /\
  (fst (recentPosts count st) = inr [] <->
     (length sorted <= Z.to_nat (- count))%nat) /\
  (sorted <> [] -> fst (recentPosts count st) <> inr sorted).
Proof.
  intros Hneg Hsort.
  destruct (sorting_queries_return st sorted Hsort) as [_ ->]. simpl.
  rewrite slice0_negative by assumption.
  set (m := (length sorted - Z.to_nat (- count))%nat).
  assert (Hlen : length (take m sorted) = Nat.min m (length sorted))
    by apply length_take.
  repeat split.
  - intros [= Hnil]. rewrite Hnil in Hlen. simpl in Hlen. lia.
  - intros Hle. f_equal. replace m with 0%nat by lia. apply take_0.
  - intros Hne [= Hfull]. rewrite Hfull in Hlen.
    destruct sorted; [contradiction | simpl in *; lia].
Qed.

Lemma recentPosts_negative_count_witness :
  exists l, fst (recentPosts (-1) scenarioStore) = inr l /\ map post_id l = [2; 3].
Proof.
  destruct (recentPosts_negative_count scenarioStore (-1) _ eq_refl eq_refl)
    as (Hres & _).
  eexists. split; [exact Hres | reflexivity].
Defined.

(** C10, as the claim words it, fails: with three posts and a count of -3
    the answer is the empty list. *)
Lemma recentPosts_negative_count_empty :
  -3 < 0 /\
  length (PostsList scenarioStore) = 3%nat /\
  fst (recentPosts (-3) scenarioStore) = inr [] /\
  fst (recentPosts (-3) datedStore) = inr [].
Proof. repeat split. Qed.

(** * Further properties of the schema *)

(** ** [Query.posts] *)

Lemma categoryValue_truthy (c : Category) :
  Js.truthy (Js.VStr (categoryValue c)) = true.
Proof. now destruct c. Qed.

Lemma categoryValue_inj (c1 c2 : Category) :
  categoryValue c1 = categoryValue c2 -> c1 = c2.
Proof. destruct c1, c2; simpl; congruence. Qed.

Lemma posts_filter (c : Category) (st : Store) :
  Query.posts (Some c) st = filter (fun p => category p = Some c) (PostsList st).
Proof.
  unfold Query.posts. rewrite categoryValue_truthy.
  apply list_filter_iff. intros p.
  destruct (category p) as [c'|]; simpl; split; intros [= H]; f_equal;
    try congruence.
  now apply categoryValue_inj.
Qed.

(** X1: without a category [posts] answers the whole collection as it
    stands; with a category, exactly the posts of that category, in the
    order of the collection. *)
Theorem posts_by_category (st : Store) :
  Query.posts None st = PostsList st /\
  forall c,
    Query.posts (Some c) st `sublist_of` PostsList st /\
    (forall p, p ∈ Query.posts (Some c) st <-> p ∈ PostsList st /\ category p = Some c).
Proof.
  split; [reflexivity|]. intros c. rewrite posts_filter. split.
  - apply sublist_filter.
  - intros p. rewrite list_elem_of_filter. tauto.
Qed.

(** X2: the answers for the four categories, together with the posts that
    have no category, are the posts of the collection, each post once. *)
Theorem posts_partition (st : Store) :
  PostsList st ≡ₚ
    Query.posts (Some METEOR) st ++ Query.posts (Some PRODUCT) st ++
    Query.posts (Some USER_STORY) st ++ Query.posts (Some OTHER) st ++
    filter (fun p => category p = None) (PostsList st).
Proof.
  rewrite !posts_filter.
  induction (PostsList st) as [|p l IH]; [reflexivity|].
  rewrite !filter_cons.
  destruct (category p) as [[]|]; simpl;
    repeat (case_decide; try congruence); simpl.
  - now constructor.
  - now apply Permutation_cons_app.
  - rewrite (app_assoc _ _ (p :: _)). apply Permutation_cons_app.
    now rewrite <- app_assoc.
  - rewrite 2!(app_assoc _ _ (p :: _)). apply Permutation_cons_app.
    now rewrite <- !app_assoc.
  - rewrite 3!(app_assoc _ _ (p :: _)). apply Permutation_cons_app.
    now rewrite <- !app_assoc.
Qed.

(** X3: a post made by [createPost] shows at the end of the answer of
    [posts] for its own category and of the answer without a category, and
    in no other. *)
Theorem posts_after_createPost
    (args : CreatePostArgs) (now : Z) (st : Store) (p : Post) :
  fst (createPost args now st) = inr p ->
  Query.posts None (snd (createPost args now st)) = Query.posts None st ++ [p] /\
  forall c,
    Query.posts (Some c) (snd (createPost args now st)) =
      if decide (arg_category args = Some c)
      then Query.posts (Some c) st ++ [p]
      else Query.posts (Some c) st.
Proof.
  intros Hp.
  assert (Hst : PostsList (snd (createPost args now st)) = PostsList st ++ [p] /\
                category p = arg_category args).
  { destruct (createPost_returned args now st p Hp) as (_ & -> & _ & _ & _ & Hcat).
    split; [reflexivity | exact Hcat]. }
  destruct Hst as [Hposts Hcat]. split; [exact Hposts|].
  intros c. rewrite !posts_filter, Hposts, filter_app, filter_cons, filter_nil.
  rewrite Hcat. repeat case_decide; try congruence. now rewrite app_nil_r.
Qed.

Lemma posts_after_createPost_witness :
  exists p,
    fst (createPost
           {| arg_title := "T"; arg_body := "B"; arg_category := Some OTHER;
              arg_author := "Bob" |} 4000 blogStore) = inr p /\
    post_id <$> Query.posts (Some OTHER)
                  (snd (createPost
                          {| arg_title := "T"; arg_body := "B";
                             arg_category := Some OTHER; arg_author := "Bob" |}
                          4000 blogStore)) = [3; 4] /\
    title <$> Query.posts (Some METEOR)
                (snd (createPost
                        {| arg_title := "T"; arg_body := "B";
                           arg_category := Some OTHER; arg_author := "Bob" |}
                        4000 blogStore)) = ["a"].
Proof.
  eexists. split; [reflexivity|].
  destruct (posts_after_createPost
              {| arg_title := "T"; arg_body := "B"; arg_category := Some OTHER;
                 arg_author := "Bob" |} 4000 blogStore _ eq_refl) as [_ Hc].
  split.
  - rewrite (Hc OTHER). reflexivity.
  - rewrite (Hc METEOR). reflexivity.
Defined.

(** ** [Query.post] *)

Section FirstMatch.
Context {A : Type} (P : A -> Prop) `{!forall x, Decision (P x)}.

Lemma head_filter_None (l : list A) :
  head (filter P l) = None <-> Forall (fun x => ~ P x) l.
Proof.
  induction l as [|x l IH]; [now split; [constructor|]|].
  rewrite filter_cons. case_decide; simpl.
  - split; [discriminate|]. intros Hall. apply Forall_cons in Hall as [Hx _].
    contradiction.
  - rewrite IH. split; [now constructor|]. intros Hall.
    now apply Forall_cons in Hall as [_ Hl].
Qed.

Lemma head_filter_first (l : list A) (x : A) :
  head (filter P l) = Some x <->
  exists l1 l2, l = l1 ++ x :: l2 /\ P x /\ Forall (fun y => ~ P y) l1.
Proof.
  split.
  - intros Hhead.
    destruct (head_filter_Some P l x Hhead) as (l1 & l2 & -> & Hl1).
    exists l1, l2. repeat split; [|exact Hl1].
    assert (Hin : x ∈ filter P (l1 ++ x :: l2)).
    { apply head_Some in Hhead as [l' ->]. apply list_elem_of_here. }
    apply list_elem_of_filter in Hin. tauto.
  - intros (l1 & l2 & -> & Hx & Hl1).
    rewrite filter_app, filter_cons. case_decide; [|contradiction].
    apply head_filter_None in Hl1. apply head_None in Hl1.
    now rewrite Hl1.
Qed.
End FirstMatch.

(** X4: [post(id)] answers the first post of the collection that has the id,
    and nothing exactly when no post has it. *)
Theorem post_first_match (id : Z) (st : Store) :
  (Query.post id st = None <-> forall p, p ∈ PostsList st -> post_id p <> id) /\
  (forall p, Query.post id st = Some p <->
             exists l1 l2, PostsList st = l1 ++ p :: l2 /\ post_id p = id /\
                           Forall (fun q => post_id q <> id) l1).
Proof.
  unfold Query.post. split.
  - rewrite (head_filter_None (fun q => post_id q = id)), Forall_forall.
    reflexivity.
  - intros p. apply (head_filter_first (fun q => post_id q = id)).
Qed.

Lemma post_unique (id : Z) (st : Store) (p : Post) :
  NoDup (post_id <$> PostsList st) ->
  Query.post id st = Some p <-> p ∈ PostsList st /\ post_id p = id.
Proof.
  intros Hnodup. unfold Query.post.
  rewrite (head_filter_first (fun q => post_id q = id)). split.
  - intros (l1 & l2 & -> & Hid & _). split; [|exact Hid].
    apply elem_of_app. right. apply list_elem_of_here.
  - intros [Hin Hid].
    apply list_elem_of_split in Hin as (l1 & l2 & Hsplit).
    exists l1, l2. repeat split; [exact Hsplit | exact Hid |].
    rewrite Hsplit, fmap_app, fmap_cons in Hnodup.
    apply NoDup_app in Hnodup as (_ & Hdisj & _).
    apply Forall_forall. intros q Hq Heq.
    apply (Hdisj (post_id q)); [now apply list_elem_of_fmap_2|].
    rewrite Heq, <- Hid. apply list_elem_of_here.
Qed.

(** X5: when no post of the collection has the id that [createPost] is
    about to assign, the number of posts plus one, [post] finds the new
    post by its id right after the call. *)
Theorem createPost_then_post
    (args : CreatePostArgs) (now : Z) (st : Store) (p : Post) :
  (forall q, q ∈ PostsList st -> post_id q <> Z.of_nat (length (PostsList st)) + 1) ->
  fst (createPost args now st) = inr p ->
  post_id p = Z.of_nat (length (PostsList st)) + 1 /\
  Query.post (post_id p) (snd (createPost args now st)) = Some p.
Proof.
  intros Hfresh Hp.
  assert (Hst : PostsList (snd (createPost args now st)) = PostsList st ++ [p] /\
                post_id p = Z.of_nat (length (PostsList st)) + 1).
  { destruct (createPost_returned args now st p Hp) as (_ & -> & Hid & _).
    split; [reflexivity | exact Hid]. }
  destruct Hst as [Hposts Hid]. split; [exact Hid|].
  apply (head_filter_first (fun q => post_id q = post_id p)).
  exists (PostsList st), []. repeat split; [exact Hposts|].
  apply Forall_forall. intros q Hq. rewrite Hid. now apply Hfresh.
Qed.

Lemma createPost_then_post_witness :
  exists p,
    fst (createPost (postArgs "Bob") 4000 blogStore) = inr p /\
    post_id p = 4 /\
    Query.post 4 (snd (createPost (postArgs "Bob") 4000 blogStore)) = Some p.
Proof.
  eexists. split; [reflexivity|].
  refine (createPost_then_post (postArgs "Bob") 4000 blogStore _ _ eq_refl).
  intros q Hq. simpl in Hq.
  repeat (apply elem_of_cons in Hq as [->|Hq]; [simpl; lia|]).
  now apply not_elem_of_nil in Hq.
Defined.

(** ** What a run of operations keeps *)

Lemma performAll_ind (P : Store -> Prop) :
  (forall op st, P st -> P (perform op st)) ->
  forall ops st, P st -> P (performAll ops st).
Proof.
  intros Hstep ops. unfold performAll.
  induction ops as [|op ops IH]; intros st Hst; simpl; [exact Hst|].
  apply IH. now apply Hstep.
Qed.

(** An operation leaves the posts permuted, or is a [createPost] that
    appends one post. *)
Lemma perform_posts (op : Operation) (st : Store) :
  allDated st ->
  PostsList (perform op st) ≡ₚ PostsList st \/
  exists p args now,
    op = OpCreatePost args now /\
    PostsList (perform op st) = PostsList st ++ [p] /\
    post_id p = Z.of_nat (length (PostsList st)) + 1 /\
    hasDateObject p /\
    userId p = idOf (getProperty (UsersMap st) (Js.toLowerCase (arg_author args))) /\
    getProperty (UsersMap st) (Js.toLowerCase (arg_author args)) <> Undefined.
Proof.
  intros Hdated. destruct op as [args now|args| |count]; simpl.
  - destruct (createPost_cases args now st)
      as [[_ ->]|[Hsome (p & -> & Hid & Huid & Hdate & _)]]; [now left|].
    right. exists p, args, now. simpl.
    repeat split; try assumption. now exists now.
  - left. destruct (createUser_cases args st)
      as [[_ ->]|(_ & _ & u & -> & _)]; reflexivity.
  - left. destruct (sort_returns _ Hdated) as (sorted & Hsort).
    destruct (sorting_queries_return st sorted Hsort) as [-> _]. simpl.
    symmetry. now apply sort_Permutation in Hsort.
  - left. destruct (sort_returns _ Hdated) as (sorted & Hsort).
    destruct (sorting_queries_return st sorted Hsort) as [_ ->]. simpl.
    symmetry. now apply sort_Permutation in Hsort.
Qed.

(** An operation leaves the users as they are, or inserts one user made by
    [createUser] under a key that was free. *)
Lemma perform_users (op : Operation) (st : Store) :
  UsersMap (perform op st) = UsersMap st \/
  exists k u,
    UsersMap st !! k = None /\
    UsersMap (perform op st) = <[k := u]> (UsersMap st) /\
    user_id u = Z.of_nat (size (UsersMap st)) + 1 /\
    k = Js.toLowerCase (username u).
Proof.
  destruct op as [args now|args| |count]; simpl.
  - left. destruct (createPost_cases args now st)
      as [[_ ->]|[_ (p & -> & _)]]; reflexivity.
  - destruct (createUser_cases args st)
      as [[_ ->]|(Hnone & _ & u & -> & Hid & Hname)]; [now left|].
    right. exists (Js.toLowerCase (arg_username args)), u. simpl.
    repeat split; try assumption. now rewrite Hname.
  - left. unfold latestPost, sortPostsList.
    now destruct (Js.sort byDateDesc (PostsList st)).
  - left. unfold recentPosts, sortPostsList.
    now destruct (Js.sort byDateDesc (PostsList st)).
Qed.

Lemma perform_comments (op : Operation) (st : Store) :
  CommentsList (perform op st) = CommentsList st.
Proof.
  destruct op as [args now|args| |count]; simpl.
  - destruct (createPost_cases args now st)
      as [[_ ->]|[_ (p & -> & _)]]; reflexivity.
  - destruct (createUser_cases args st)
      as [[_ ->]|(_ & _ & u & -> & _)]; reflexivity.
  - unfold latestPost, sortPostsList.
    now destruct (Js.sort byDateDesc (PostsList st)).
  - unfold recentPosts, sortPostsList.
    now destruct (Js.sort byDateDesc (PostsList st)).
Qed.

Lemma perform_users_subseteq (op : Operation) (st : Store) :
  UsersMap st ⊆ UsersMap (perform op st).
Proof.
  destruct (perform_users op st) as [->|(k & u & Hfree & -> & _)];
    [reflexivity | now apply insert_subseteq].
Qed.

Lemma perform_allDated (op : Operation) (st : Store) :
  allDated st -> allDated (perform op st).
Proof.
  intros Hdated. unfold allDated in *.
  destruct (perform_posts op st Hdated)
    as [Hperm|(p & args & now & _ & -> & _ & [t Hdate] & _)].
  - now rewrite Hperm.
  - apply Forall_app. split; [exact Hdated|].
    repeat constructor. congruence.
Qed.

Lemma perform_postIdsDense (op : Operation) (st : Store) :
  allDated st -> postIdsDense st -> postIdsDense (perform op st).
Proof.
  intros Hdated [Hnodup Hrange]. unfold postIdsDense.
  destruct (perform_posts op st Hdated)
    as [Hperm|(p & args & now & _ & -> & Hid & _)].
  - assert (Hlen : length (PostsList (perform op st)) = length (PostsList st))
      by now rewrite Hperm.
    rewrite Hlen, Hperm. split; [exact Hnodup | exact Hrange].
  - rewrite fmap_app, length_app. simpl. split.
    + apply NoDup_app. repeat split; [exact Hnodup | | apply NoDup_singleton].
      intros i Hi Hnew. apply list_elem_of_singleton in Hnew. subst i.
      apply list_elem_of_fmap in Hi as (q & Hq & Hin).
      rewrite Forall_forall in Hrange. specialize (Hrange q Hin). lia.
    + apply Forall_app. split.
      * eapply Forall_impl; [exact Hrange|]. intros q Hq. simpl in Hq. lia.
      * repeat constructor; lia.
Qed.

Lemma perform_posts_elem (op : Operation) (st : Store) (p : Post) :
  allDated st -> p ∈ PostsList st -> p ∈ PostsList (perform op st).
Proof.
  intros Hdated Hin.
  destruct (perform_posts op st Hdated)
    as [Hperm|(q & args & now & _ & -> & _)].
  - now rewrite Hperm.
  - apply elem_of_app. now left.
Qed.

(** X6: on a store in which every post has a date and the post ids are
    pairwise distinct and within 1 .. number of posts, every run of
    mutations and sorting queries keeps both: the id [createPost] assigns is
    never one that is in use. *)
Theorem postIdsDense_preserved (ops : list Operation) (st : Store) :
  allDated st -> postIdsDense st ->
  allDated (performAll ops st) /\ postIdsDense (performAll ops st).
Proof.
  intros Hdated Hdense.
  apply (performAll_ind (fun s => allDated s /\ postIdsDense s));
    [|now split].
  intros op s [Hd Hi]. split;
    [now apply perform_allDated | now apply perform_postIdsDense].
Qed.

Lemma allDated_aliceStore : allDated aliceStore.
Proof. constructor. Qed.

Lemma postIdsDense_aliceStore : postIdsDense aliceStore.
Proof. split; constructor. Qed.

Lemma postIdsDense_preserved_witness :
  postIdsDense
    (performAll [OpCreatePost (postArgs "alice") 1000; OpLatestPost;
                 OpCreatePost (postArgs "nobody") 2000; OpRecentPosts (-1);
                 OpCreatePost (postArgs "ALICE") 3000]
                aliceStore).
Proof.
  apply (postIdsDense_preserved _ aliceStore allDated_aliceStore
           postIdsDense_aliceStore).
Defined.

(** X7: on such a store, what [post(id)] has answered once it answers after
    every run of mutations and sorting queries: no post is dropped, and
    neither the reordering nor a new post comes between an id and its
    post. *)
Theorem post_stable (ops : list Operation) (st : Store) (id : Z) (p : Post) :
  allDated st -> postIdsDense st ->
  Query.post id st = Some p ->
  Query.post id (performAll ops st) = Some p.
Proof.
  intros Hdated Hdense Hpost.
  apply (post_unique id st p (proj1 Hdense)) in Hpost as [Hin Hid].
  assert (H : allDated (performAll ops st) /\ postIdsDense (performAll ops st) /\
              p ∈ PostsList (performAll ops st)).
  { apply (performAll_ind
             (fun s => allDated s /\ postIdsDense s /\ p ∈ PostsList s));
      [|now split; [|split]].
    intros op s (Hd & Hi & Hp).
    split; [now apply perform_allDated|].
    split; [now apply perform_postIdsDense | now apply perform_posts_elem]. }
  destruct H as (_ & [Hnodup _] & Hin').
  now apply post_unique.
Qed.

Lemma allDated_blogStore : allDated blogStore.
Proof. repeat constructor; discriminate. Qed.

Lemma postIdsDense_blogStore : postIdsDense blogStore.
Proof.
  split.
  - simpl. repeat (apply NoDup_cons; split; [|]);
      try apply NoDup_nil_2; rewrite ?elem_of_cons, ?elem_of_nil; lia.
  - repeat constructor; simpl; lia.
Qed.

Lemma post_stable_witness :
  exists p,
    Query.post 2 blogStore = Some p /\
    Query.post 2 (performAll [OpCreatePost (postArgs "bob") 4000; OpLatestPost;
                              OpCreateUser (userArgs "carol")] blogStore) = Some p.
Proof.
  eexists. split; [reflexivity|].
  apply (post_stable _ blogStore 2 _ allDated_blogStore postIdsDense_blogStore).
  reflexivity.
Defined.

(** ** Users *)

Lemma mapOrder_valuesOf : valuesOf mapOrder.
Proof. intros m. reflexivity. Qed.

Lemma elem_of_values (values : ValuesOrder) (m : gmap string User) (u : User) :
  valuesOf values -> u ∈ values m <-> exists k, m !! k = Some u.
Proof.
  intros Hvalues. rewrite (Hvalues m), list_elem_of_fmap. split.
  - intros ([k u'] & -> & Hin). exists k. now apply elem_of_map_to_list.
  - intros (k & Hk). exists (k, u). split; [reflexivity|].
    now apply elem_of_map_to_list.
Qed.

(** X9: after a [createUser] that returns, [users] lists the new user and
    the users it listed before, and nothing else. *)
Theorem users_after_createUser
    (values : ValuesOrder) (args : CreateUserArgs) (st : Store) (u : User) :
  valuesOf values ->
  fst (createUser args st) = inr u ->
  Query.users values (snd (createUser args st)) ≡ₚ u :: Query.users values st.
Proof.
  intros Hvalues Hu. unfold Query.users.
  destruct (createUser_returned args st u Hu) as (Hkey & _ & -> & _). simpl.
  unfold valuesOf in Hvalues.
  rewrite !Hvalues, map_to_list_insert by exact Hkey. reflexivity.
Qed.

Lemma users_after_createUser_witness :
  exists u,
    fst (createUser (userArgs "Carol") blogStore) = inr u /\
    Query.users mapOrder (snd (createUser (userArgs "Carol") blogStore))
      ≡ₚ u :: Query.users mapOrder blogStore.
Proof.
  eexists. split; [reflexivity|].
  exact (users_after_createUser mapOrder (userArgs "Carol") blogStore _
           mapOrder_valuesOf eq_refl).
Defined.

(** X10: [Post.author] answers a user of the map whose id is the [userId]
    of the post, and nothing exactly when the map holds no such user. *)
Theorem Post_author_by_id (values : ValuesOrder) (p : Post) (st : Store) :
  valuesOf values ->
  (Post_author values p st = None <->
     forall k u, UsersMap st !! k = Some u -> userId p <> Some (user_id u)) /\
  (forall u, Post_author values p st = Some u ->
             (exists k, UsersMap st !! k = Some u) /\ userId p = Some (user_id u)).
Proof.
  intros Hvalues. unfold Post_author. split.
  - rewrite (head_filter_None (fun u => userId p = Some (user_id u))),
      Forall_forall.
    split.
    + intros Hnone k u Hk Hid. apply (Hnone u); [|exact Hid].
      apply (elem_of_values values _ u Hvalues). eauto.
    + intros Hnone u Hin Hid.
      apply (elem_of_values values _ u Hvalues) in Hin as (k & Hk).
      now apply (Hnone k u Hk).
  - intros u Hhead.
    apply (head_filter_first (fun u => userId p = Some (user_id u))) in Hhead
      as (l1 & l2 & Hsplit & Hid & _).
    split; [|exact Hid].
    apply (elem_of_values values _ u Hvalues). rewrite Hsplit.
    apply elem_of_app. right. apply list_elem_of_here.
Qed.

Lemma Post_author_by_id_witness :
  Post_author mapOrder (dated 1 0) blogStore = Some alice /\
  (exists k, UsersMap blogStore !! k = Some alice) /\
  userId (dated 1 0) = Some (user_id alice).
Proof.
  split; [reflexivity|].
  exact (proj2 (Post_author_by_id mapOrder (dated 1 0) blogStore
                  mapOrder_valuesOf) alice eq_refl).
Defined.

Lemma Post_author_unique
    (values : ValuesOrder) (p : Post) (st : Store) (k : string) (u : User) :
  valuesOf values ->
  (forall k1 k2 u1 u2, UsersMap st !! k1 = Some u1 -> UsersMap st !! k2 = Some u2 ->
                       user_id u1 = user_id u2 -> k1 = k2) ->
  UsersMap st !! k = Some u -> userId p = Some (user_id u) ->
  Post_author values p st = Some u.
Proof.
  intros Hvalues Hinj Hk Hid. unfold Post_author.
  destruct (head (filter (fun u => userId p = Some (user_id u))
                         (values (UsersMap st))))
    as [u'|] eqn:Hhead.
  - apply (head_filter_first (fun u => userId p = Some (user_id u))) in Hhead
      as (l1 & l2 & Hsplit & Hid' & _).
    assert (Hin : u' ∈ values (UsersMap st)).
    { rewrite Hsplit. apply elem_of_app. right. apply list_elem_of_here. }
    apply (elem_of_values values _ u' Hvalues) in Hin as (k' & Hk').
    assert (k' = k) by (apply (Hinj k' k u' u); congruence).
    subst k'. congruence.
  - apply (head_filter_None (fun u => userId p = Some (user_id u))) in Hhead.
    rewrite Forall_forall in Hhead. exfalso. apply (Hhead u); [|exact Hid].
    apply (elem_of_values values _ u Hvalues). eauto.
Qed.

(** X11: when no two users of the map share an id, the author of a post
    that [createPost] has just made is the very user its author argument
    named. *)
Theorem createPost_then_author
    (values : ValuesOrder) (args : CreatePostArgs) (now : Z) (st : Store)
    (p : Post) (u : User) :
  valuesOf values ->
  (forall k1 k2 u1 u2, UsersMap st !! k1 = Some u1 -> UsersMap st !! k2 = Some u2 ->
                       user_id u1 = user_id u2 -> k1 = k2) ->
  user (arg_author args) st = Own u ->
  fst (createPost args now st) = inr p ->
  Post_author values p (snd (createPost args now st)) = Some u.
Proof.
  unfold user. intros Hvalues Hinj Hu Hp. apply getProperty_Own in Hu.
  destruct (createPost_returns args now st u Hu) as (p' & Hcall & _ & Huid & _).
  rewrite Hcall in Hp |- *. simpl in Hp |- *. injection Hp as ->.
  apply (Post_author_unique values p _ (Js.toLowerCase (arg_author args)) u);
    simpl; auto.
Qed.

Lemma userIds_distinct_blogStore (k1 k2 : string) (u1 u2 : User) :
  UsersMap blogStore !! k1 = Some u1 -> UsersMap blogStore !! k2 = Some u2 ->
  user_id u1 = user_id u2 -> k1 = k2.
Proof.
  simpl. rewrite !lookup_insert_Some, !lookup_singleton_Some.
  intros [[<- <-]|[_ [<- <-]]] [[<- <-]|[_ [<- <-]]]; simpl;
    intros; congruence.
Qed.

Lemma createPost_then_author_witness :
  exists p,
    fst (createPost (postArgs "BOB") 4000 blogStore) = inr p /\
    Post_author mapOrder p (snd (createPost (postArgs "BOB") 4000 blogStore))
      = Some bob.
Proof.
  eexists. split; [reflexivity|].
  exact (createPost_then_author mapOrder (postArgs "BOB") 4000 blogStore _ bob
           mapOrder_valuesOf userIds_distinct_blogStore eq_refl eq_refl).
Defined.

Lemma perform_userIdsDense (op : Operation) (st : Store) :
  userIdsDense st -> userIdsDense (perform op st).
Proof.
  intros [Hrange Hinj]. unfold userIdsDense.
  destruct (perform_users op st) as [->|(k & u & Hfree & -> & Hid & _)];
    [now split|].
  rewrite (map_size_insert_None _ _ _ Hfree). split.
  - intros k' u'. rewrite lookup_insert_Some.
    intros [[_ <-]|[_ Hk']]; [lia|].
    specialize (Hrange k' u' Hk'). lia.
  - intros k1 k2 u1 u2. rewrite !lookup_insert_Some.
    intros [[<- <-]|[Hne1 Hk1]] [[<- <-]|[Hne2 Hk2]] Hsame;
      try reflexivity.
    + specialize (Hrange k2 u2 Hk2). lia.
    + specialize (Hrange k1 u1 Hk1). lia.
    + now apply (Hinj k1 k2 u1 u2).
Qed.

(** X12: on a store in which the user ids are pairwise distinct and within
    1 .. number of users, every run of mutations and sorting queries keeps
    it so: the id [createUser] assigns is never one that is in use. *)
Theorem userIdsDense_preserved (ops : list Operation) (st : Store) :
  userIdsDense st -> userIdsDense (performAll ops st).
Proof.
  apply performAll_ind. intros op s. apply perform_userIdsDense.
Qed.

Lemma userIdsDense_blogStore : userIdsDense blogStore.
Proof.
  split; [|exact userIds_distinct_blogStore].
  intros k u. simpl. rewrite lookup_insert_Some, lookup_singleton_Some.
  intros [[<- <-]|[_ [<- <-]]]; vm_compute; split; discriminate.
Qed.

Lemma userIdsDense_preserved_witness :
  userIdsDense
    (performAll [OpCreateUser (userArgs "Carol"); OpCreateUser (userArgs "carol");
                 OpLatestPost; OpCreateUser (userArgs "Dave")] blogStore).
Proof.
  exact (userIdsDense_preserved _ blogStore userIdsDense_blogStore).
Defined.

(** X13: after a [createUser] that returns, [user] finds the new user under
    its username in any casing, the id of the new user is the former number
    of users plus one, and every other lookup answers as before. *)
Theorem createUser_then_user (args : CreateUserArgs) (st : Store) (u : User) :
  fst (createUser args st) = inr u ->
  user_id u = Z.of_nat (size (UsersMap st)) + 1 /\
  username u = arg_username args /\
  (forall U, Js.toLowerCase U = Js.toLowerCase (arg_username args) ->
             user U (snd (createUser args st)) = Own u) /\
  (forall U, Js.toLowerCase U <> Js.toLowerCase (arg_username args) ->
             user U (snd (createUser args st)) = user U st).
Proof.
  intros Hu. unfold user.
  destruct (createUser_returned args st u Hu) as (_ & _ & -> & Hid & Hname).
  simpl. repeat split; [exact Hid | exact Hname | |].
  - intros U ->. apply getProperty_Own, lookup_insert_eq.
  - intros U Hne. unfold getProperty. now rewrite lookup_insert_ne.
Qed.

Lemma createUser_then_user_witness :
  exists u,
    fst (createUser (userArgs "Carol") blogStore) = inr u /\
    user_id u = 3 /\
    user "CAROL" (snd (createUser (userArgs "Carol") blogStore)) = Own u /\
    user "Bob" (snd (createUser (userArgs "Carol") blogStore)) = Own bob.
Proof.
  eexists. split; [reflexivity|].
  destruct (createUser_then_user (userArgs "Carol") blogStore _ eq_refl)
    as (Hid & _ & Hsame & Hother).
  split; [exact Hid|]. split; [now apply Hsame|].
  rewrite Hother; [reflexivity | discriminate].
Defined.

(** X14: once [createUser] has returned for a username, every further
    [createUser] for that username in any casing throws and leaves the
    store as it is, whatever operations ran in between. *)
Theorem createUser_twice
    (args args' : CreateUserArgs) (ops : list Operation) (st : Store) (u : User) :
  fst (createUser args st) = inr u ->
  Js.toLowerCase (arg_username args') = Js.toLowerCase (arg_username args) ->
  threw (createUser args' (performAll ops (snd (createUser args st)))) /\
  snd (createUser args' (performAll ops (snd (createUser args st)))) =
    performAll ops (snd (createUser args st)).
Proof.
  intros Hu Hsame.
  assert (Hkey : UsersMap (performAll ops (snd (createUser args st)))
                   !! Js.toLowerCase (arg_username args') = Some u).
  { apply (performAll_ind
             (fun s => UsersMap s !! Js.toLowerCase (arg_username args') = Some u)).
    - intros op s Hs.
      now apply (lookup_weaken _ _ _ _ Hs (perform_users_subseteq op s)).
    - rewrite Hsame.
      destruct (createUser_returned args st u Hu) as (_ & _ & -> & _). simpl.
      apply lookup_insert_eq. }
  rewrite (createUser_throws args' _ u Hkey). split; [|reflexivity].
  eexists. reflexivity.
Qed.

Lemma createUser_twice_witness :
  threw (createUser (userArgs "CAROL")
           (performAll [OpCreatePost (postArgs "carol") 5000; OpLatestPost]
              (snd (createUser (userArgs "Carol") blogStore)))).
Proof.
  exact (proj1 (createUser_twice (userArgs "Carol") (userArgs "CAROL")
                  [OpCreatePost (postArgs "carol") 5000; OpLatestPost]
                  blogStore _ eq_refl eq_refl)).
Defined.

(** X15: what [user] has answered once it answers after every run of
    mutations and sorting queries: no user is ever removed or replaced. *)
Theorem user_stable (ops : list Operation) (st : Store) (U : string) (u : User) :
  user U st = Own u -> user U (performAll ops st) = Own u.
Proof.
  unfold user. rewrite !getProperty_Own.
  apply (performAll_ind (fun s => UsersMap s !! Js.toLowerCase U = Some u)).
  intros op s Hs.
  now apply (lookup_weaken _ _ _ _ Hs (perform_users_subseteq op s)).
Qed.

Lemma user_stable_witness :
  user "BOB"
    (performAll [OpCreateUser (userArgs "bob"); OpCreateUser (userArgs "Carol");
                 OpRecentPosts 1; OpCreatePost (postArgs "Bob") 4000] blogStore)
  = Own bob.
Proof.
  exact (user_stable _ blogStore "BOB" bob eq_refl).
Defined.

(** ** Authors of posts *)

Lemma perform_authorsExist (op : Operation) (st : Store) :
  allDated st -> authorsExist st -> plainOp op -> authorsExist (perform op st).
Proof.
  intros Hdated Hexist Hplain. unfold authorsExist in *.
  assert (Hlift : Forall (fun p => exists k u, UsersMap (perform op st) !! k = Some u /\
                                               userId p = Some (user_id u))
                         (PostsList st)).
  { eapply Forall_impl; [exact Hexist|]. intros p (k & u & Hk & Hid).
    exists k, u. split; [|exact Hid].
    exact (lookup_weaken _ _ _ _ Hk (perform_users_subseteq op st)). }
  destruct (perform_posts op st Hdated)
    as [Hperm|(p & args & now & Hop & Hposts & _ & _ & Huid & Hsome)].
  - now rewrite Hperm.
  - rewrite Hposts. apply Forall_app. split; [exact Hlift|].
    repeat constructor. subst op. simpl in Hplain.
    destruct (getProperty (UsersMap st) (Js.toLowerCase (arg_author args)))
      as [u|name|] eqn:Hfound; [| |contradiction].
    + apply getProperty_Own in Hfound.
      exists (Js.toLowerCase (arg_author args)), u. split; [|exact Huid].
      exact (lookup_weaken _ _ _ _ Hfound
               (perform_users_subseteq (OpCreatePost args now) st)).
    + apply getProperty_Inherited in Hfound as (_ & Hin & _). contradiction.
Qed.

(** X16: on a store in which every post has a date and the [userId] of every
    post is the id of a user, the same holds after every run of mutations
    and sorting queries in which no [createPost] names, up to case, a
    property the users map inherits ([constructor], [__proto__]); and
    [Post.author] then finds an author for every post of the collection. *)
Theorem authors_always_found
    (values : ValuesOrder) (ops : list Operation) (st : Store) :
  valuesOf values -> allDated st -> authorsExist st -> Forall plainOp ops ->
  authorsExist (performAll ops st) /\
  forall p, p ∈ PostsList (performAll ops st) ->
            is_Some (Post_author values p (performAll ops st)).
Proof.
  intros Hvalues Hdated Hexist Hplain.
  assert (H : allDated (performAll ops st) /\ authorsExist (performAll ops st)).
  { unfold performAll. revert st Hdated Hexist.
    induction Hplain as [|op ops Hop Hops IH]; intros st Hdated Hexist; simpl;
      [now split|].
    apply IH; [now apply perform_allDated | now apply perform_authorsExist]. }
  destruct H as [_ Hall]. split; [exact Hall|].
  intros p Hp. unfold authorsExist in Hall. rewrite Forall_forall in Hall.
  destruct (Hall p Hp) as (k & u & Hk & Hid).
  unfold Post_author.
  destruct (head (filter (fun u => userId p = Some (user_id u))
                         (values (UsersMap (performAll ops st))))) eqn:Hhead;
    [eauto|].
  apply (head_filter_None (fun u => userId p = Some (user_id u))) in Hhead.
  rewrite Forall_forall in Hhead. exfalso. apply (Hhead u); [|exact Hid].
  apply (elem_of_values values _ u Hvalues). eauto.
Qed.

Lemma authorsExist_blogStore : authorsExist blogStore.
Proof.
  repeat constructor; simpl.
  - exists "alice", alice. split; reflexivity.
  - exists "bob", bob. split; reflexivity.
  - exists "alice", alice. split; reflexivity.
Qed.

Lemma plainOp_carol_dave :
  Forall plainOp
    [OpCreateUser (userArgs "Carol"); OpCreatePost (postArgs "carol") 4000;
     OpLatestPost; OpCreatePost (postArgs "dave") 5000].
Proof.
  repeat constructor; simpl; intros H; unfold objectPrototype in H;
    repeat (apply elem_of_cons in H as [H|H]; [discriminate|]);
    now apply not_elem_of_nil in H.
Qed.

Lemma authors_always_found_witness :
  authorsExist
    (performAll [OpCreateUser (userArgs "Carol"); OpCreatePost (postArgs "carol") 4000;
                 OpLatestPost; OpCreatePost (postArgs "dave") 5000] blogStore).
Proof.
  exact (proj1 (authors_always_found mapOrder _ blogStore mapOrder_valuesOf
                  allDated_blogStore authorsExist_blogStore plainOp_carol_dave)).
Defined.

(** Without that condition the invariant is lost: a [createPost] for the
    author [constructor] appends a post for which [Post.author] finds
    nobody. *)
Example author_of_inherited_name :
  exists p,
    fst (createPost (postArgs "constructor") 4000 blogStore) = inr p /\
    userId p = None /\
    Post_author mapOrder p (snd (createPost (postArgs "constructor") 4000 blogStore))
      = None.
Proof. eexists. repeat split. Qed.

(** ** Comments *)

(** X17: no mutation and no sorting query touches the comments: the answer
    of [Post.comments] for a post and a limit is the same after every run of
    them. *)
Theorem comments_stable
    (ops : list Operation) (p : Post) (limit : IntArg) (st : Store) :
  CommentsList (performAll ops st) = CommentsList st /\
  comments p limit (performAll ops st) = comments p limit st.
Proof.
  assert (H : CommentsList (performAll ops st) = CommentsList st).
  { apply (performAll_ind (fun s => CommentsList s = CommentsList st));
      [|reflexivity].
    intros op s <-. apply perform_comments. }
  split; [exact H|]. unfold comments. now rewrite H.
Qed.

(** X18: a larger limit only adds comments at the end: for limits
    [0 <= n <= m] the answer for [n] is a prefix of the answer for [m]. *)
Theorem comments_prefix (p : Post) (n m : Z) (st : Store) :
  0 <= n -> n <= m ->
  comments p (ArgInt n) st `prefix_of` comments p (ArgInt m) st.
Proof.
  intros Hn Hm. unfold comments. simpl.
  destruct (Z.leb_spec 0 n); [|lia]. destruct (Z.leb_spec 0 m); [|lia].
  rewrite !slice0_nonneg by lia.
  replace (Z.to_nat n) with (Nat.min (Z.to_nat n) (Z.to_nat m)) by lia.
  rewrite <- take_take. apply prefix_take.
Qed.

Lemma comments_prefix_witness :
  comments (rec 1 0) (ArgInt 2) commentStore
    `prefix_of` comments (rec 1 0) (ArgInt 4) commentStore.
Proof.
  apply (comments_prefix (rec 1 0) 2 4 commentStore); lia.
Defined.

(** ** Dates of created posts *)

(** X19: the timestamp of a post made by [createPost] is the reading of the
    clock at the call: the resolver neither throws nor answers [null]. *)
Theorem createPost_then_timestamp
    (args : CreatePostArgs) (now : Z) (st : Store) (p : Post) :
  fst (createPost args now st) = inr p ->
  exists ts, timestamp p = inr ts /\ epoch ts = Some now.
Proof.
  intros Hp.
  destruct (createPost_returned args now st p Hp) as (_ & _ & _ & _ & Hdate & _).
  exists (TsDate now). unfold timestamp. rewrite Hdate. split; reflexivity.
Qed.

Lemma createPost_then_timestamp_witness :
  exists p,
    fst (createPost (postArgs "alice") 1700000000000 aliceStore) = inr p /\
    exists ts, timestamp p = inr ts /\ epoch ts = Some 1700000000000.
Proof.
  eexists. split; [reflexivity|].
  exact (createPost_then_timestamp (postArgs "alice") 1700000000000
           aliceStore _ eq_refl).
Defined.

(** ** More on the sorting queries *)

Lemma setPosts_same (st : Store) : setPosts (PostsList st) st = st.
Proof. now destruct st. Qed.

Lemma sort_short (l : list Post) :
  (length l <= 1)%nat -> Js.sort byDateDesc l = inr l.
Proof.
  destruct l as [|x [|y l]]; simpl; [reflexivity | reflexivity | lia].
Qed.

(** X20: on a collection of at most one post the sorting queries compare
    nothing: they return whatever the date of the post, leave the store as
    it is, and answer from the collection as it stands. *)
Theorem sorting_queries_short (st : Store) :
  (length (PostsList st) <= 1)%nat ->
  latestPost st = (inr (head (PostsList st)), st) /\
  forall count, recentPosts count st = (inr (Js.slice0 (PostsList st) count), st).
Proof.
  intros Hshort.
  destruct (sorting_queries_return st _ (sort_short _ Hshort)) as [-> Hrecent].
  rewrite setPosts_same. split; [reflexivity|].
  intros count. rewrite Hrecent. now rewrite setPosts_same.
Qed.

Lemma sorting_queries_short_witness :
  latestPost (setPosts [undated 7] aliceStore)
    = (inr (Some (undated 7)), setPosts [undated 7] aliceStore) /\
  latestPost aliceStore = (inr None, aliceStore).
Proof.
  split.
  - apply (sorting_queries_short (setPosts [undated 7] aliceStore)). simpl. lia.
  - apply (sorting_queries_short aliceStore). simpl. lia.
Defined.

Lemma sort_throws_iff (l : list Post) :
  (exists e, Js.sort byDateDesc l = inl e) <->
  (2 <= length l)%nat /\ Exists (fun p => date p = NoDate) l.
Proof.
  split.
  - intros [e He]. split.
    + destruct (le_lt_dec (length l) 1) as [Hshort|Hlong]; [|lia].
      rewrite (sort_short l Hshort) in He. discriminate.
    + destruct (decide (Exists (fun p => date p = NoDate) l)) as [Hex|Hnone];
        [exact Hex|].
      apply not_Exists_Forall in Hnone; [|intros p; apply _].
      destruct (sort_returns l Hnone) as (r & Hr). congruence.
  - intros [Hlen Hex]. now apply sort_throws_undated.
Qed.

(** X21: a sorting query throws exactly when the collection has at least two
    posts and one of them has no date. *)
Theorem sorting_queries_throw_iff (st : Store) (count : Z) :
  (threw (latestPost st) <->
     (2 <= length (PostsList st))%nat /\
     Exists (fun p => date p = NoDate) (PostsList st)) /\
  (threw (recentPosts count st) <->
     (2 <= length (PostsList st))%nat /\
     Exists (fun p => date p = NoDate) (PostsList st)).
Proof.
  rewrite <- sort_throws_iff. unfold threw.
  destruct (Js.sort byDateDesc (PostsList st)) as [e|sorted] eqn:Hsort.
  - destruct (sorting_queries_throw st e Hsort) as [-> ->].
    split; split; eauto.
  - destruct (sorting_queries_return st sorted Hsort) as [-> ->]. simpl.
    split; split; intros [e He]; discriminate.
Qed.

(** X22: both sorting queries throw together, leave the same collection
    when they return, and the answer of [latestPost] is the first post of
    the answer of [recentPosts] for any count of at least one. *)
Theorem latestPost_is_first_recent (st : Store) (count : Z) :
  (forall e, fst (latestPost st) = inl e <-> fst (recentPosts count st) = inl e) /\
  (forall l, fst (recentPosts count st) = inr l ->
             PostsList (snd (latestPost st)) = PostsList (snd (recentPosts count st)) /\
             (1 <= count -> fst (latestPost st) = inr (head l))).
Proof.
  destruct (Js.sort byDateDesc (PostsList st)) as [e|sorted] eqn:Hsort.
  - destruct (sorting_queries_throw st e Hsort) as [-> ->].
    split; [intros e'; split; congruence | intros l; discriminate].
  - destruct (sorting_queries_return st sorted Hsort) as [-> ->]. simpl.
    split; [intros e; split; discriminate|].
    intros l [= <-]. split; [reflexivity|].
    intros Hcount. rewrite slice0_nonneg by lia.
    destruct sorted as [|p sorted]; simpl.
    + now rewrite take_nil.
    + destruct (Z.to_nat count) as [|n] eqn:Hn; [lia | reflexivity].
Qed.

Lemma NoDup_fmap_elem_inj {A B : Type} (f : A -> B) (l : list A) (x y : A) :
  NoDup (f <$> l) -> x ∈ l -> y ∈ l -> f x = f y -> x = y.
Proof.
  induction l as [|a l IH]; intros Hnodup Hx Hy Hsame.
  - now apply not_elem_of_nil in Hx.
  - rewrite fmap_cons in Hnodup. apply NoDup_cons in Hnodup as [Hfresh Hnodup].
    apply elem_of_cons in Hx as [->|Hx]; apply elem_of_cons in Hy as [->|Hy].
    + reflexivity.
    + exfalso. apply Hfresh. rewrite Hsame. now apply list_elem_of_fmap_2.
    + exfalso. apply Hfresh. rewrite <- Hsame. now apply list_elem_of_fmap_2.
    + now apply IH.
Qed.

Lemma notOlder_antisym (a b : Post) :
  notOlder a b -> notOlder b a -> postTime a = postTime b.
Proof.
  intros (ta & tb & Ha & Hb & Hab) (tb' & ta' & Hb' & Ha' & Hba).
  rewrite Ha, Hb in *. injection Hb' as <-. injection Ha' as <-.
  f_equal. lia.
Qed.

(** When no two posts have the same date there is one descending order
    only: whatever sort puts the posts in descending order of date puts
    them in that order. *)
Lemma descending_unique (l1 : list Post) :
  forall l2, l1 ≡ₚ l2 -> descendingByDate l1 -> descendingByDate l2 ->
             NoDup (postTime <$> l1) -> l1 = l2.
Proof.
  unfold descendingByDate.
  induction l1 as [|x l1 IH]; intros l2 Hperm Hd1 Hd2 Hnodup.
  - now apply Permutation_nil_l in Hperm.
  - destruct l2 as [|y l2].
    { symmetry in Hperm. now apply Permutation_nil_l in Hperm. }
    apply StronglySorted_inv in Hd1 as [Hd1 Hx].
    apply StronglySorted_inv in Hd2 as [Hd2 Hy].
    rewrite Forall_forall in Hx, Hy.
    assert (Hxy : x = y).
    { assert (Hx2 : x ∈ y :: l2) by (rewrite <- Hperm; apply list_elem_of_here).
      assert (Hy1 : y ∈ x :: l1) by (rewrite Hperm; apply list_elem_of_here).
      apply elem_of_cons in Hx2 as [Heq|Hx2]; [exact Heq|].
      apply elem_of_cons in Hy1 as Hy1'. destruct Hy1' as [Heq|Hy1']; [now symmetry|].
      apply (NoDup_fmap_elem_inj postTime (x :: l1) x y Hnodup);
        [apply list_elem_of_here | exact Hy1 |].
      apply notOlder_antisym; [now apply Hx | now apply Hy]. }
    subst y. f_equal.
    rewrite fmap_cons in Hnodup. apply NoDup_cons in Hnodup as [_ Hnodup].
    apply IH; [now apply Permutation_cons_inv in Hperm | assumption..].
Qed.

(** X23: when the posts are all dated by [$date] records and no two of them
    have the same date, the reordering is done by the first sorting query:
    any sorting query after it leaves the store as it found it, and answers
    as it would have answered in place of the first. *)
Theorem sorting_queries_repeat (st : Store) (first : Z) :
  Forall hasDollarDate (PostsList st) ->
  NoDup (postTime <$> PostsList st) ->
  snd (latestPost st) = snd (recentPosts first st) /\
  snd (latestPost (snd (recentPosts first st))) = snd (recentPosts first st) /\
  fst (latestPost (snd (recentPosts first st))) = fst (latestPost st) /\
  forall count,
    snd (recentPosts count (snd (recentPosts first st))) = snd (recentPosts first st) /\
    fst (recentPosts count (snd (recentPosts first st))) = fst (recentPosts count st).
Proof.
  intros Hdollar Hnodup.
  destruct (sort_dollar _ Hdollar) as (sorted & Hsort & Hdesc & Hperm).
  assert (Htwice : Js.sort byDateDesc sorted = inr sorted).
  { assert (Hdollar' : Forall hasDollarDate sorted) by now rewrite <- Hperm.
    destruct (sort_dollar _ Hdollar') as (again & Hagain & Hdesc' & Hperm').
    rewrite Hagain. f_equal. symmetry.
    apply descending_unique; try assumption. now rewrite <- Hperm. }
  destruct (sorting_queries_return st sorted Hsort) as [-> Hrecent].
  rewrite !Hrecent. simpl.
  destruct (sorting_queries_return (setPosts sorted st) sorted Htwice)
    as [-> Hrecent'].
  simpl. repeat split; try reflexivity.
  - rewrite Hrecent'. reflexivity.
  - rewrite Hrecent', Hrecent. reflexivity.
Qed.

Lemma scenarioStore_distinct_dates : NoDup (postTime <$> PostsList scenarioStore).
Proof.
  simpl. repeat (apply NoDup_cons; split);
    rewrite ?elem_of_cons, ?elem_of_nil; try apply NoDup_nil_2;
    intuition discriminate.
Qed.

Lemma sorting_queries_repeat_witness :
  snd (latestPost (snd (recentPosts 2 scenarioStore))) = snd (recentPosts 2 scenarioStore) /\
  fst (latestPost (snd (recentPosts 2 scenarioStore))) = fst (latestPost scenarioStore).
Proof.
  destruct (sorting_queries_repeat scenarioStore 2 scenarioStore_dollar
              scenarioStore_distinct_dates)
    as (_ & Hstore & Hanswer & _).
  split; [exact Hstore | exact Hanswer].
Defined.

(** X24: for a count of at least zero, whenever [recentPosts] returns, its
    answer is the first [count] posts of the collection as the call leaves
    it, all of them when there are fewer; every post of the answer is a post
    the collection had before the call. *)
Theorem recentPosts_nonnegative_count (st : Store) (count : Z) (l : list Post) :
  0 <= count ->
  fst (recentPosts count st) = inr l ->
  l = take (Z.to_nat count) (PostsList (snd (recentPosts count st))) /\
  length l = Nat.min (Z.to_nat count) (length (PostsList st)) /\
  (forall p, p ∈ l -> p ∈ PostsList st).
Proof.
  intros Hcount Hl.
  destruct (Js.sort byDateDesc (PostsList st)) as [e|sorted] eqn:Hsort.
  - destruct (sorting_queries_throw st e Hsort) as [_ Hthrow].
    rewrite Hthrow in Hl. discriminate.
  - destruct (sorting_queries_return st sorted Hsort) as [_ Hrecent].
    rewrite Hrecent in Hl |- *. simpl in Hl |- *. injection Hl as <-.
    rewrite slice0_nonneg by assumption.
    pose proof (sort_Permutation _ _ _ Hsort) as Hperm.
    repeat split.
    + rewrite length_take. now rewrite Hperm.
    + intros p Hp. rewrite Hperm.
      eapply elem_of_submseteq; [exact Hp|].
      apply sublist_submseteq, sublist_take.
Qed.

Lemma recentPosts_nonnegative_count_witness :
  exists l,
    fst (recentPosts 5 datedStore) = inr l /\
    length l = 3%nat /\
    l = take 5 (PostsList (snd (recentPosts 5 datedStore))).
Proof.
  eexists. split; [reflexivity|].
  destruct (recentPosts_nonnegative_count datedStore 5 _ ltac:(lia) eq_refl)
    as (Htake & Hlen & _).
  split; [exact Hlen | exact Htake].
Defined.

(** ** Casing of the author *)

(** X25: [createPost] reads its author argument up to case: two calls whose
    authors differ in casing only throw together, and when they return
    their posts carry the same [userId] and the same id. *)
Theorem createPost_author_casing
    (args args' : CreatePostArgs) (now now' : Z) (st : Store) :
  Js.toLowerCase (arg_author args) = Js.toLowerCase (arg_author args') ->
  (threw (createPost args now st) <-> threw (createPost args' now' st)) /\
  (forall p p', fst (createPost args now st) = inr p ->
                fst (createPost args' now' st) = inr p' ->
                userId p = userId p' /\ post_id p = post_id p').
Proof.
  intros Hsame. unfold threw.
  destruct (createPost_cases args now st)
    as [[Hnone ->]|[Hsome (q & -> & Hid & Huid & _)]].
  - rewrite Hsame in Hnone. rewrite (createPost_throws args' now' st Hnone). simpl.
    split; [split; eauto | discriminate].
  - rewrite Hsame in Hsome, Huid.
    destruct (createPost_found args' now' st Hsome) as (q' & -> & Hid' & Huid' & _).
    simpl. split.
    + split; intros [e He]; discriminate.
    + intros p p' [= <-] [= <-]. split; congruence.
Qed.

Lemma createPost_author_casing_witness :
  exists p p',
    fst (createPost (postArgs "bob") 1 blogStore) = inr p /\
    fst (createPost (postArgs "BoB") 2 blogStore) = inr p' /\
    userId p = userId p'.
Proof.
  eexists _, _. split; [reflexivity|]. split; [reflexivity|].
  exact (proj1 (proj2 (createPost_author_casing (postArgs "bob") (postArgs "BoB")
                         1 2 blogStore eq_refl) _ _ eq_refl eq_refl)).
Defined.
